(** * The order-matching engine of [exchange.py]

    A shallow embedding of [Exchange.on_order_received] and of
    [Exchange._init_symbol_if_needed], followed by the properties of the
    matching engine: maker price, book ordering, conservation of quantity,
    the no-cross invariant, time priority, residual insertion, totality,
    the frame of a call and the behaviour on unusual inputs. *)

From Stdlib Require Import ZArith String List Lia Sorted Permutation.
From stdpp Require Import base gmap strings list sorting fin_maps.

Local Open Scope string_scope.
Local Open Scope list_scope.
Local Open Scope Z_scope.

(** * Part I: the model *)

(** ** Data model *)

(** An order as the dictionary the code handles:
    [{'username', 'side', 'symbol', 'price', 'quantity'}].
    [side] is a string, as in the source (the code only ever tests
    [side == "BUY"]). A price is a number that the code only compares
    ([<=], [>=], sort key) and copies; it is taken in [Z], a price in
    ticks, which is totally ordered as Python's finite numbers are. A
    quantity is a Python integer, compared and subtracted. *)
Record Order := mkOrder {
  username : string;
  side : string;
  symbol : string;
  price : Z;
  quantity : Z
}.

(** Equality of two dictionaries is decidable, field by field. *)
Global Instance Order_eq_dec : EqDecision Order.
Proof. solve_decision. Defined.

(** A dictionary stored in a book. Python dictionaries are heap objects: the
    sorted copy of a book list made inside the matching loop holds the very
    objects of the book list, and [opp_order["quantity"] = ...] mutates the
    object, wherever it is referenced. [oid] is the identity of the object:
    the allocation stamp of the dictionary built at lines 136-142, so it
    also records the order of arrival. Equality of dictionaries ([==], used
    by [list.index]) compares [dict] only. *)
Record Resting := mkResting {
  oid : nat;
  dict : Order
}.

(** The trade dictionary of lines 122-128. *)
Record Trade := mkTrade {
  trade_symbol : string;
  buyer : string;
  seller : string;
  trade_price : Z;
  trade_qty : Z
}.

(** [{'buy': [...], 'sell': [...]}] *)
Record Book := mkBook {
  buy : list Resting;
  sell : list Resting
}.

(** The [Exchange] object: [order_books] maps a symbol to its book;
    [next_oid] is the stamp of the next dictionary to be allocated. *)
Record Exchange := mkExchange {
  order_books : gmap string Book;
  next_oid : nat
}.

(** [Exchange.__init__] *)
Definition init : Exchange := {| order_books := ∅; next_oid := 0%nat |}.

(** ** Exceptions and results *)

(** The exceptions the list and dictionary operations used here can raise. *)
Inductive exn := ValueError | IndexError | KeyError.

(** The outcome of running a piece of the program: a value, a raised
    exception, or the iteration budget of the [while] loop exhausted. *)
Inductive result (A : Type) : Type :=
| Ok (a : A)
| Raise (e : exn)
| OutOfFuel.
Arguments Ok {A} a.
Arguments Raise {A} e.
Arguments OutOfFuel {A}.

(** Sequencing: an exception, or an exhausted budget, ends the run. *)
Global Instance result_ret : MRet result := fun A a => Ok a.
Global Instance result_bind : MBind result := fun A B f m =>
  match m with
  | Ok a => f a
  | Raise e => Raise e
  | OutOfFuel => OutOfFuel
  end.

(** ** Python list primitives *)

(** [l.index(x)]: position of the first element equal ([==]) to [x];
    raises [ValueError] when there is none. *)
Fixpoint index (x : Order) (l : list Resting) : result nat :=
  match l with
  | [] => Raise ValueError
  | y :: l' =>
      if bool_decide (dict y = x) then Ok 0%nat
      else n ← index x l'; Ok (S n)
  end.

(** [l.pop(i)] for [i >= 0], the popped element dropped as the code drops
    it; raises [IndexError] out of range. *)
Definition pop (l : list Resting) (i : nat) : result (list Resting) :=
  if (i <? length l)%nat then Ok (delete i l) else Raise IndexError.

(** [sorted(l, key=lambda x: x["price"], reverse=...)] and
    [l.sort(key=..., reverse=...)]: Python's sort is stable, also with
    [reverse=True] (elements with equal keys keep their order). A stable
    insertion sort computes that result. *)
Definition key_le (reverse : bool) (a b : Resting) : bool :=
  if reverse then price (dict b) <=? price (dict a)
  else price (dict a) <=? price (dict b).

Fixpoint insert_by (reverse : bool) (x : Resting) (l : list Resting)
  : list Resting :=
  match l with
  | [] => [x]
  | y :: l' =>
      if key_le reverse x y then x :: y :: l'
      else y :: insert_by reverse x l'
  end.

Fixpoint sorted (reverse : bool) (l : list Resting) : list Resting :=
  match l with
  | [] => []
  | x :: l' => insert_by reverse x (sorted reverse l')
  end.

(** [obj["quantity"] = q] on the object with identity [target]: every
    reference to that object in the list sees the new quantity. *)
Definition with_quantity (q : Z) (r : Resting) : Resting :=
  {| oid := oid r;
     dict := {| username := username (dict r); side := side (dict r);
                symbol := symbol (dict r); price := price (dict r);
                quantity := q |} |}.

Definition set_quantity (target : nat) (q : Z) (l : list Resting)
  : list Resting :=
  map (fun r => if (oid r =? target)%nat then with_quantity q r else r) l.

(** ** [Exchange._init_symbol_if_needed] *)

Definition empty_book : Book := {| buy := []; sell := [] |}.

Definition _init_symbol_if_needed (self : Exchange) (sym : string)
  : Exchange :=
  match order_books self !! sym with
  | None => {| order_books := <[sym := empty_book]> (order_books self);
               next_oid := next_oid self |}
  | Some _ => self
  end.

(** ** [Exchange.on_order_received] *)

(** [side == "BUY"] *)
Definition is_buy (order : Order) : bool := String.eqb (side order) "BUY".

(** The two local functions chosen at lines 64-79. *)
Definition match_condition (buying : bool) (opposite_price my_price : Z)
  : bool :=
  if buying then opposite_price <=? my_price
  else opposite_price >=? my_price.

Definition sort_opposite (buying : bool) (orders : list Resting)
  : list Resting :=
  sorted (negb buying) orders.

(** The variables the [while] loop of lines 86-131 reads and writes. *)
Record loop_state := mkLoop {
  opposite_list : list Resting;
  remaining_qty : Z;
  matched : bool;
  trades : list Trade
}.

(** [remaining_qty > 0 and matched and len(opposite_list) > 0] *)
Definition loop_cond (st : loop_state) : bool :=
  (0 <? remaining_qty st) && matched st
  && (0 <? length (opposite_list st))%nat.

(** One iteration of the [while] loop: sort a copy, scan it for the first
    order that meets the matching condition, trade against it and [break];
    when the scan finds nothing, [matched] stays [False]. *)
Definition loop_body (order : Order) (st : loop_state) : result loop_state :=
  let buying := is_buy order in
  let opposite_list_sorted := sort_opposite buying (opposite_list st) in
  match find (fun opp_order =>
                match_condition buying (price (dict opp_order)) (price order))
             opposite_list_sorted with
  | None =>
      Ok {| opposite_list := opposite_list st;
            remaining_qty := remaining_qty st;
            matched := false;
            trades := trades st |}
  | Some opp_order =>
      original_index ← index (dict opp_order) (opposite_list st);
      let opp_qty := quantity (dict opp_order) in
      '(trade_quantity, opposite_list', remaining') ←
        (if opp_qty =? remaining_qty st then
           l ← pop (opposite_list st) original_index;
           Ok (remaining_qty st, l, 0)
         else if opp_qty >? remaining_qty st then
           Ok (remaining_qty st,
               set_quantity (oid opp_order) (opp_qty - remaining_qty st)
                            (opposite_list st),
               0)
         else
           l ← pop (opposite_list st) original_index;
           Ok (opp_qty, l, remaining_qty st - opp_qty));
      let trade_info :=
        {| trade_symbol := symbol order;
           buyer := if buying then username order
                    else username (dict opp_order);
           seller := if buying then username (dict opp_order)
                     else username order;
           trade_price := price (dict opp_order);
           trade_qty := trade_quantity |} in
      Ok {| opposite_list := opposite_list';
            remaining_qty := remaining';
            matched := true;
            trades := trades st ++ [trade_info] |}
  end.

(** The [while] loop; [fuel] bounds the number of iterations. *)
Fixpoint while_loop (fuel : nat) (order : Order) (st : loop_state)
  : result loop_state :=
  if loop_cond st then
    match fuel with
    | O => OutOfFuel
    | S fuel' => st' ← loop_body order st; while_loop fuel' order st'
    end
  else Ok st.

(** [self.order_books[symbol]] *)
Definition get_book (self : Exchange) (sym : string) : result Book :=
  match order_books self !! sym with
  | Some b => Ok b
  | None => Raise KeyError
  end.

(** The dictionary built at lines 136-142. *)
Definition new_order (order : Order) (remaining : Z) : Order :=
  {| username := username order; symbol := symbol order;
     side := side order; price := price order; quantity := remaining |}.

(** [on_order_received]. The two lists are mutated in place by the code; the
    model stores their final values back under the symbol. *)
Definition on_order_received (fuel : nat) (self : Exchange) (order : Order)
  : result (list Trade * Exchange) :=
  let self := _init_symbol_if_needed self (symbol order) in
  book ← get_book self (symbol order);
  let buying := is_buy order in
  let opposite := if buying then sell book else buy book in
  let same_side_list := if buying then buy book else sell book in
  st ← while_loop fuel order
         {| opposite_list := opposite; remaining_qty := quantity order;
            matched := true; trades := [] |};
  let '(same_side_list, next) :=
    if 0 <? remaining_qty st then
      (sorted buying
         (same_side_list
            ++ [ {| oid := next_oid self;
                    dict := new_order order (remaining_qty st) |} ]),
       S (next_oid self))
    else (same_side_list, next_oid self) in
  let book' :=
    if buying then {| buy := same_side_list; sell := opposite_list st |}
    else {| buy := opposite_list st; sell := same_side_list |} in
  Ok (trades st,
      {| order_books := <[symbol order := book']> (order_books self);
         next_oid := next |}).

(** ** Sequences of calls and reachable states *)

(** Processing a sequence of orders, one call after the other, collecting
    the trades in the order they are produced. *)
Fixpoint run (fuel : nat) (self : Exchange) (orders : list Order)
  : result (list Trade * Exchange) :=
  match orders with
  | [] => Ok ([], self)
  | order :: rest =>
      '(ts, self') ← on_order_received fuel self order;
      '(ts', self'') ← run fuel self' rest;
      Ok (ts ++ ts', self'')
  end.

(** The states the engine can be in between two calls. *)
Inductive reachable : Exchange → Prop :=
| reachable_init : reachable init
| reachable_step fuel self order ts self' :
    reachable self →
    on_order_received fuel self order = Ok (ts, self') →
    reachable self'.

(** The state a sequence of orders leaves, from the empty registry. *)
Definition state_after (fuel : nat) (orders : list Order) : Exchange :=
  match run fuel init orders with
  | Ok (_, self) => self
  | _ => init
  end.

(** ** Reading a state *)

(** The book of a symbol, empty when the symbol is not registered. *)
Definition book_of (self : Exchange) (sym : string) : Book :=
  default empty_book (order_books self !! sym).

(** The list an order is matched against, and the list its residual joins
    (lines 64-79). *)
Definition opposite_of (order : Order) (book : Book) : list Resting :=
  if is_buy order then sell book else buy book.

(** [same_side_list] *)
Definition same_of (order : Order) (book : Book) : list Resting :=
  if is_buy order then buy book else sell book.

(** The loop variables at line 86, before the first test. *)
Definition loop_start (order : Order) (book : Book) : loop_state :=
  {| opposite_list := opposite_of order book;
     remaining_qty := quantity order;
     matched := true;
     trades := [] |}.

(** User, price and quantity of each entry, in list order. *)
Definition view (l : list Resting) : list (string * Z * Z) :=
  map (fun r => (username (dict r), price (dict r), quantity (dict r))) l.

(** ** Price-time order *)

(** [before rev a b]: [a] has priority over [b], by price first (higher
    first when [rev], lower first otherwise) and by arrival at equal price. *)
Definition before (rev : bool) (a b : Resting) : Prop :=
  (if rev then price (dict b) < price (dict a)
   else price (dict a) < price (dict b))
  ∨ (price (dict a) = price (dict b) ∧ (oid a < oid b)%nat).

(** Sorted by (price, arrival): price descending for [rev], ascending
    otherwise; arrival ascending within a price level. *)
Definition price_time (rev : bool) (l : list Resting) : Prop :=
  StronglySorted (before rev) l.

(** Sorted by price alone, as the sort key of the code sees it. *)
Definition price_sorted (rev : bool) (l : list Resting) : Prop :=
  StronglySorted (fun a b => key_le rev a b = true) l.

(** [match_condition(opp_order["price"], price)] for the incoming order. *)
Definition crosses (order : Order) (r : Resting) : bool :=
  match_condition (is_buy order) (price (dict r)) (price order).

(** The trade dictionary of lines 122-128, for a match of [order] against
    [opp_order] for the quantity [q]. *)
Definition make_trade (order : Order) (opp_order : Resting) (q : Z) : Trade :=
  {| trade_symbol := symbol order;
     buyer := if is_buy order then username order
              else username (dict opp_order);
     seller := if is_buy order then username (dict opp_order)
               else username order;
     trade_price := price (dict opp_order);
     trade_qty := q |}.

(** ** The algorithm as the specification words it *)

(** Matching as the specification describes it (4.2, step 4): look at the
    front of the opposite collection only; stop when it does not cross;
    otherwise trade [min(remaining, best.quantity)] and remove the front
    when it is used up. Returns the trades, the opposite collection and the
    remaining quantity. *)
Fixpoint front_matching (order : Order) (opposite : list Resting)
    (remaining : Z) : list Trade * list Resting * Z :=
  match opposite with
  | [] => ([], [], remaining)
  | best :: rest =>
      if (0 <? remaining) && crosses order best then
        if quantity (dict best) <=? remaining then
          let '(ts, opposite', remaining') :=
            front_matching order rest (remaining - quantity (dict best)) in
          (make_trade order best (quantity (dict best)) :: ts,
           opposite', remaining')
        else
          ([make_trade order best remaining],
           with_quantity (quantity (dict best) - remaining) best :: rest,
           0)
      else ([], opposite, remaining)
  end.

(** Insertion as the specification describes it (4.2, step 5): after all
    entries with an equal or better price, before the first entry with a
    strictly worse price. *)
Fixpoint place (rev : bool) (x : Resting) (l : list Resting) : list Resting :=
  match l with
  | [] => [x]
  | y :: l' =>
      if key_le rev y x then y :: place rev x l' else x :: y :: l'
  end.

(** The call as the specification describes it: a pure reducer
    (book, order) -> (book', trades), matching at the front and inserting
    the residual in place. *)
Definition process (self : Exchange) (order : Order)
  : list Trade * Exchange :=
  let book := default empty_book (order_books self !! symbol order) in
  let buying := is_buy order in
  let '(ts, opposite', remaining) :=
    front_matching order (if buying then sell book else buy book)
                   (quantity order) in
  let same := if buying then buy book else sell book in
  let same' :=
    if 0 <? remaining then
      place buying {| oid := next_oid self;
                      dict := new_order order remaining |} same
    else same in
  (ts,
   {| order_books :=
        <[symbol order := if buying then {| buy := same'; sell := opposite' |}
                          else {| buy := opposite'; sell := same' |}]>
          (order_books self);
      next_oid := if 0 <? remaining then S (next_oid self)
                  else next_oid self |}).

(** The book of the order's symbol after [process]. *)
Definition book_after (next : nat) (order : Order) (book : Book) : Book :=
  let buying := is_buy order in
  let '(ts, opposite', remaining) :=
    front_matching order (if buying then sell book else buy book)
                   (quantity order) in
  let same := if buying then buy book else sell book in
  let same' :=
    if 0 <? remaining then
      place buying {| oid := next; dict := new_order order remaining |} same
    else same in
  if buying then {| buy := same'; sell := opposite' |}
  else {| buy := opposite'; sell := same' |}.

(** The allocation stamp after [process]. *)
Definition next_after (next : nat) (order : Order) (book : Book) : nat :=
  let '(ts, opposite', remaining) :=
    front_matching order (if is_buy order then sell book else buy book)
                   (quantity order) in
  if 0 <? remaining then S next else next.

(** ** Quantities *)

(** Total quantity of a list of resting orders, and of a list of trades. *)
Definition sum_qty (l : list Resting) : Z :=
  foldr (fun r acc => quantity (dict r) + acc) 0 l.

Definition sum_trades (ts : list Trade) : Z :=
  foldr (fun t acc => trade_qty t + acc) 0 ts.

(** The trades that fill each entry of [consumed] in full. *)
Definition full_trades (order : Order) (consumed : list Resting)
  : list Trade :=
  map (fun r => make_trade order r (quantity (dict r))) consumed.

(** Quantity submitted for a symbol on one side ([buying]: the buy side). *)
Definition submitted (buying : bool) (sym : string) (orders : list Order)
  : Z :=
  foldr (fun o acc =>
           (if String.eqb (symbol o) sym && Bool.eqb (is_buy o) buying
            then quantity o else 0) + acc) 0 orders.

(** Quantity traded in a symbol. A trade matches one buy order with one
    sell order, so its quantity is matched against both sides. *)
Definition traded (sym : string) (ts : list Trade) : Z :=
  foldr (fun t acc =>
           (if String.eqb (trade_symbol t) sym then trade_qty t else 0) + acc)
        0 ts.

(** Quantity resting for a symbol on one side. *)
Definition resting (buying : bool) (self : Exchange) (sym : string) : Z :=
  sum_qty (if buying then buy (book_of self sym) else sell (book_of self sym)).

(** Highest and lowest price on a list, when it is not empty. *)
Definition highest_price (l : list Resting) : option Z :=
  foldr (fun r acc =>
           Some (match acc with
                 | None => price (dict r)
                 | Some m => Z.max (price (dict r)) m
                 end)) None l.

Definition lowest_price (l : list Resting) : option Z :=
  foldr (fun r acc =>
           Some (match acc with
                 | None => price (dict r)
                 | Some m => Z.min (price (dict r)) m
                 end)) None l.

(** ** Consistent states and valid orders *)

(** One side of a book: in price-time order, distinct objects, positive
    quantities, every object allocated before [next]. *)
Definition side_ok (rev : bool) (next : nat) (l : list Resting) : Prop :=
  price_time rev l
  ∧ NoDup (map oid l)
  ∧ Forall (fun r => 0 < quantity (dict r)) l
  ∧ Forall (fun r => (oid r < next)%nat) l.

(** Every resting buy price is below every resting sell price. *)
Definition no_cross (b : Book) : Prop :=
  ∀ x y, x ∈ buy b → y ∈ sell b → price (dict x) < price (dict y).

(** The invariant of a book, and of the registry. *)
Definition book_ok (next : nat) (b : Book) : Prop :=
  side_ok true next (buy b) ∧ side_ok false next (sell b) ∧ no_cross b.

Definition consistent (self : Exchange) : Prop :=
  ∀ sym b, order_books self !! sym = Some b → book_ok (next_oid self) b.

(** The preconditions of the specification on an inbound order. *)
Definition valid (order : Order) : Prop :=
  0 < quantity order ∧ 0 < price order
  ∧ (side order = "BUY" ∨ side order = "SELL").

(** ** Orders whose side is not "BUY" *)

(** The same order with [side] set to ["SELL"]. *)
Definition as_sell (order : Order) : Order :=
  {| username := username order; side := "SELL"; symbol := symbol order;
     price := price order; quantity := quantity order |}.

(** The object with identity [n] read with [side] set to ["SELL"]; every
    other object as it is. *)
Definition relabel (n : nat) (r : Resting) : Resting :=
  if (oid r =? n)%nat then {| oid := oid r; dict := as_sell (dict r) |}
  else r.

(** ** Sample data *)

(** Two sellers at the same price, a buyer below them, another symbol. *)
Definition demo_orders : list Order :=
  [mkOrder "ann" "SELL" "AAPL" 100 5;
   mkOrder "bob" "SELL" "AAPL" 100 5;
   mkOrder "cy" "BUY" "AAPL" 99 4;
   mkOrder "dee" "SELL" "MSFT" 50 10].

Definition demo_state : Exchange := state_after 10 demo_orders.

Definition demo_order : Order := mkOrder "eve" "BUY" "AAPL" 101 7.

Definition demo_trades : list Trade :=
  [mkTrade "AAPL" "eve" "ann" 100 5; mkTrade "AAPL" "eve" "bob" 100 2].

Definition demo_state' : Exchange :=
  state_after 10 (demo_orders ++ [demo_order]).

(** An order whose side is neither "BUY" nor "SELL". *)
Definition odd_order : Order := mkOrder "gus" "HOLD" "AAPL" 99 6.

Definition odd_trades : list Trade := [mkTrade "AAPL" "cy" "gus" 99 4].

Definition odd_state' : Exchange := state_after 10 (demo_orders ++ [odd_order]).

(** ** The consumer of [main] (exchange.py, lines 182-217) *)

(** What the channel has been asked to do: the trades published to the
    trades queue, oldest first, and the delivery tags acknowledged. A
    published body is [json.dumps(t).encode("utf-8")]; it is kept as the
    trade [t] it encodes. *)
Record Channel := mkChannel {
  published : list Trade;
  acked : list nat
}.

(** [channel.basic_publish(exchange="", routing_key=TRADES_QUEUE, body=...)] *)
Definition basic_publish (ch : Channel) (t : Trade) : Channel :=
  {| published := published ch ++ [t]; acked := acked ch |}.

(** [ch.basic_ack(delivery_tag=...)] *)
Definition basic_ack (ch : Channel) (delivery_tag : nat) : Channel :=
  {| published := published ch; acked := acked ch ++ [delivery_tag] |}.

(** [callback(ch, method, properties, body)]. A delivery is the tag of
    [method] and the body: [None] is a body that
    [json.loads(body.decode("utf-8"))] rejects, [Some order] a body that
    decodes to a dictionary with the five fields. An exception of
    [on_order_received] is not caught: it leaves the callback before the
    acknowledgement. *)
Definition callback (fuel : nat) (exchange_instance : Exchange)
    (ch : Channel) (delivery : nat * option Order)
  : result (Exchange * Channel) :=
  match delivery.2 with
  | None => Ok (exchange_instance, basic_ack ch delivery.1)
  | Some order =>
      '(ts, exchange_instance') ←
        on_order_received fuel exchange_instance order;
      Ok (exchange_instance',
          basic_ack (foldl basic_publish ch ts) delivery.1)
  end.

(** [channel.start_consuming()] on a queue of deliveries: the callback runs
    on each delivery in turn. *)
Fixpoint start_consuming (fuel : nat) (exchange_instance : Exchange)
    (ch : Channel) (queue : list (nat * option Order))
  : result (Exchange * Channel) :=
  match queue with
  | [] => Ok (exchange_instance, ch)
  | delivery :: rest =>
      '(exchange_instance', ch') ←
        callback fuel exchange_instance ch delivery;
      start_consuming fuel exchange_instance' ch' rest
  end.

(** The orders among the deliveries, in order. *)
Definition decoded (queue : list (nat * option Order)) : list Order :=
  omap snd queue.

(** ** The trade monitor (GUI.py, lines 151-166) *)

(** A decoded trade message: a dictionary in which each of the five keys
    may be missing ([None]). Prices are in [Z] as in the exchange; the
    default [0.0] of [trade.get("price", 0.0)] is the price 0. *)
Record TradeMsg := mkTradeMsg {
  get_symbol : option string;
  get_price : option Z;
  get_quantity : option Z;
  get_buyer : option string;
  get_seller : option string
}.

(** A [ttk.Treeview] showing headings only: the rows under the root, top
    to bottom, each with the item identifier the widget gave it, and the
    next identifier it will give. *)
Record Treeview (V : Type) := mkTreeview {
  rows : list (nat * V);
  next_item : nat
}.
Arguments mkTreeview {V} rows next_item.
Arguments rows {V} t.
Arguments next_item {V} t.

(** [tree.insert("", tk.END, values=...)] *)
Definition tree_insert {V} (tree : Treeview V) (values : V) : Treeview V :=
  {| rows := rows tree ++ [(next_item tree, values)];
     next_item := S (next_item tree) |}.

(** [tree.get_children()] *)
Definition get_children {V} (tree : Treeview V) : list nat :=
  map fst (rows tree).

(** [tree.delete(item)]; the widget raises [TclError] ([None]) for an item
    it does not hold. *)
Definition tree_delete {V} (tree : Treeview V) (item : nat)
  : option (Treeview V) :=
  if bool_decide (item ∈ get_children tree) then
    Some {| rows := filter (fun r => r.1 ≠ item) (rows tree);
            next_item := next_item tree |}
  else None.

(** [d[key] = value] on a Python dictionary, kept as the list of its items
    in insertion order: an existing key keeps its place. *)
Fixpoint dict_set (key : string) (value : Z) (d : list (string * Z))
  : list (string * Z) :=
  match d with
  | [] => [(key, value)]
  | (k, v) :: d' =>
      if String.eqb k key then (k, value) :: d'
      else (k, v) :: dict_set key value d'
  end.

(** The value shown for a key in a list of (key, value) rows: that of the
    first row with the key. *)
Fixpoint shown (key : string) (d : list (string * Z)) : option Z :=
  match d with
  | [] => None
  | (k, v) :: d' => if String.eqb k key then Some v else shown key d'
  end.

(** The part of the [TradingGUI] object the two methods use. *)
Record TradingGUI := mkTradingGUI {
  trades_tree : Treeview (string * Z * Z * string * string);
  prices_tree : Treeview (string * Z);
  last_prices : list (string * Z)
}.

(** The monitor when [__init__] returns: empty trees, no price. *)
Definition gui_init : TradingGUI :=
  {| trades_tree := mkTreeview [] 0;
     prices_tree := mkTreeview [] 0;
     last_prices := [] |}.

(** The first loop of [_refresh_prices_tree]: delete each item of the
    tuple [get_children()] returned. *)
Fixpoint delete_items {V} (tree : Treeview V) (items : list nat)
  : option (Treeview V) :=
  match items with
  | [] => Some tree
  | item :: rest => tree' ← tree_delete tree item; delete_items tree' rest
  end.

(** [TradingGUI._refresh_prices_tree] *)
Definition _refresh_prices_tree (self : TradingGUI) : option TradingGUI :=
  tree ← delete_items (prices_tree self) (get_children (prices_tree self));
  Some {| trades_tree := trades_tree self;
          prices_tree := foldl tree_insert tree (last_prices self);
          last_prices := last_prices self |}.

(** The row [_process_trade] builds from a message, with the defaults of
    [trade.get]. *)
Definition trade_row (trade : TradeMsg) : string * Z * Z * string * string :=
  (default "???" (get_symbol trade), default 0 (get_price trade),
   default 0 (get_quantity trade), default "???" (get_buyer trade),
   default "???" (get_seller trade)).

(** [TradingGUI._process_trade] *)
Definition _process_trade (self : TradingGUI) (trade : TradeMsg)
  : option TradingGUI :=
  let symbol := default "???" (get_symbol trade) in
  let price := default 0 (get_price trade) in
  let quantity := default 0 (get_quantity trade) in
  let buyer := default "???" (get_buyer trade) in
  let seller := default "???" (get_seller trade) in
  _refresh_prices_tree
    {| trades_tree :=
         tree_insert (trades_tree self)
                     (symbol, price, quantity, buyer, seller);
       prices_tree := prices_tree self;
       last_prices := dict_set symbol price (last_prices self) |}.

(** The calls of [_process_trade] the main loop makes for a sequence of
    messages, in order. *)
Fixpoint process_trades (self : TradingGUI) (msgs : list TradeMsg)
  : option TradingGUI :=
  match msgs with
  | [] => Some self
  | trade :: rest => self' ← _process_trade self trade;
                     process_trades self' rest
  end.

(** The price of the latest message for a symbol, with the defaults of
    [trade.get]. *)
Fixpoint latest_price (sym : string) (msgs : list TradeMsg) : option Z :=
  match msgs with
  | [] => None
  | trade :: rest =>
      match latest_price sym rest with
      | Some p => Some p
      | None =>
          if String.eqb (default "???" (get_symbol trade)) sym
          then Some (default 0 (get_price trade)) else None
      end
  end.

(** A tree as the widget keeps it: distinct item identifiers, all given
    out already. *)
Definition tree_ok {V} (tree : Treeview V) : Prop :=
  NoDup (get_children tree)
  ∧ Forall (fun item => (item < next_item tree)%nat) (get_children tree).

(** * Part II: properties *)

(** ** Scenarios of the specification, run on the model *)

Example scenario_1_2 :
  ∃ self1 self2,
    on_order_received 10 init (mkOrder "u1" "SELL" "AAPL" 100 10)
      = Ok ([], self1)
    ∧ view (sell (book_of self1 "AAPL")) = [("u1", 100, 10)]
    ∧ on_order_received 10 self1 (mkOrder "u2" "BUY" "AAPL" 101 10)
      = Ok ([mkTrade "AAPL" "u2" "u1" 100 10], self2)
    ∧ book_of self2 "AAPL" = empty_book.
Proof. do 2 eexists. repeat split; vm_compute; reflexivity. Qed.

Example scenario_3 :
  ∃ self,
    run 10 init [mkOrder "s1" "SELL" "AAPL" 100 5;
                 mkOrder "s2" "SELL" "AAPL" 99 5;
                 mkOrder "b" "BUY" "AAPL" 100 7]
      = Ok ([mkTrade "AAPL" "b" "s2" 99 5; mkTrade "AAPL" "b" "s1" 100 2],
            self)
    ∧ view (sell (book_of self "AAPL")) = [("s1", 100, 3)]
    ∧ buy (book_of self "AAPL") = [].
Proof. eexists. repeat split; vm_compute; reflexivity. Qed.

Example scenario_4 :
  ∃ self,
    run 10 init [mkOrder "A" "BUY" "AAPL" 100 10;
                 mkOrder "B" "BUY" "AAPL" 100 5;
                 mkOrder "s" "SELL" "AAPL" 100 12]
      = Ok ([mkTrade "AAPL" "A" "s" 100 10; mkTrade "AAPL" "B" "s" 100 2],
            self)
    ∧ view (buy (book_of self "AAPL")) = [("B", 100, 3)]
    ∧ sell (book_of self "AAPL") = [].
Proof. eexists. repeat split; vm_compute; reflexivity. Qed.

Example scenario_5 :
  ∃ self,
    run 10 init [mkOrder "s" "SELL" "MSFT" 50 10;
                 mkOrder "b" "BUY" "MSFT" 40 10]
      = Ok ([], self)
    ∧ view (sell (book_of self "MSFT")) = [("s", 50, 10)]
    ∧ view (buy (book_of self "MSFT")) = [("b", 40, 10)].
Proof. eexists. repeat split; vm_compute; reflexivity. Qed.

(** ** The sort and the list primitives *)

Lemma insert_by_perm rev x l : insert_by rev x l ≡ₚ x :: l.
Proof.
  induction l as [|y l IH]; simpl; [done|].
  destruct (key_le rev x y); [done|].
  rewrite IH. apply Permutation_swap.
Qed.

Lemma sorted_perm rev l : sorted rev l ≡ₚ l.
Proof.
  induction l as [|x l IH]; simpl; [done|].
  by rewrite insert_by_perm, IH.
Qed.

Lemma index_found x l r :
  r ∈ l → dict r = x →
  ∃ i, index x l = Ok i ∧ (i < length l)%nat.
Proof.
  intros Hin Hx. induction Hin as [r l|r y l Hin IH]; simpl.
  - rewrite bool_decide_eq_true_2 by done. exists 0%nat. split; [done|lia].
  - destruct (bool_decide (dict y = x)).
    + exists 0%nat. split; [done|lia].
    + destruct (IH Hx) as (i & -> & Hi). exists (S i). simpl. split; [done|lia].
Qed.

Lemma pop_length l i l' :
  pop l i = Ok l' → length l = S (length l').
Proof.
  unfold pop. destruct (Nat.ltb_spec i (length l)) as [Hi|]; [|done].
  intros [= <-]. revert i Hi.
  induction l as [|x l IH]; simpl; intros i Hi; [lia|].
  destruct i; simpl; [done|]. rewrite <- IH by lia. done.
Qed.

Lemma pop_ok l i : (i < length l)%nat → pop l i = Ok (delete i l).
Proof.
  intros Hi. unfold pop. destruct (Nat.ltb_spec i (length l)); [done|lia].
Qed.

(** ** Termination and absence of exceptions, in any state *)

Lemma while_loop_exit fuel order st :
  loop_cond st = false → while_loop fuel order st = Ok st.
Proof. intros H. destruct fuel; simpl; by rewrite H. Qed.

(** An iteration never raises; it either falsifies the loop condition or
    removes an entry of the opposite list. *)
Lemma loop_body_progress order st :
  ∃ st', loop_body order st = Ok st'
         ∧ (loop_cond st' = false
            ∨ (length (opposite_list st') < length (opposite_list st))%nat).
Proof.
  unfold loop_body.
  destruct (find _ _) as [r|] eqn:Hfind.
  - apply find_some in Hfind as [Hin _].
    apply list_elem_of_In in Hin.
    unfold sort_opposite in Hin. rewrite sorted_perm in Hin.
    destruct (index_found (dict r) _ r Hin eq_refl) as (i & -> & Hi).
    simpl. destruct (quantity (dict r) =? remaining_qty st).
    + rewrite (pop_ok _ _ Hi). simpl. eexists. split; [done|].
      left. done.
    + destruct (quantity (dict r) >? remaining_qty st); simpl.
      * eexists. split; [done|]. left. done.
      * rewrite (pop_ok _ _ Hi). simpl. eexists. split; [done|].
        right. simpl. pose proof (pop_length _ _ _ (pop_ok _ _ Hi)). lia.
  - eexists. split; [done|]. left. unfold loop_cond. simpl.
    by rewrite andb_false_r.
Qed.

Lemma while_loop_total fuel order st :
  (length (opposite_list st) < fuel)%nat →
  ∃ st', while_loop fuel order st = Ok st'.
Proof.
  revert st. induction fuel as [|fuel IH]; intros st Hlen; [lia|].
  simpl. destruct (loop_cond st) eqn:Hc; [|by eexists].
  destruct (loop_body_progress order st) as (st1 & -> & [Hex|Hlt]); simpl.
  - exists st1. by apply while_loop_exit.
  - apply IH. lia.
Qed.

(** More fuel never changes a result. *)
Lemma while_loop_fuel_mono fuel fuel' order st st' :
  while_loop fuel order st = Ok st' → (fuel ≤ fuel')%nat →
  while_loop fuel' order st = Ok st'.
Proof.
  revert fuel' st. induction fuel as [|fuel IH]; intros fuel' st; simpl.
  - destruct (loop_cond st) eqn:Hc; [done|].
    intros [= <-] _. by apply while_loop_exit.
  - destruct (loop_cond st) eqn:Hc.
    + destruct fuel' as [|fuel']; [lia|]. simpl. rewrite Hc.
      destruct (loop_body order st) as [st1| |]; simpl; [|done..].
      intros H Hle. apply IH; [done|lia].
    + intros [= <-] _. by apply while_loop_exit.
Qed.

Lemma get_book_init self sym :
  ∃ b, get_book (_init_symbol_if_needed self sym) sym = Ok b
       ∧ b = default empty_book (order_books self !! sym).
Proof.
  unfold get_book, _init_symbol_if_needed.
  destruct (order_books self !! sym) as [b|] eqn:Hb; simpl.
  - rewrite Hb. by exists b.
  - rewrite lookup_insert_eq. by eexists.
Qed.

(** ** The code's loop on a sorted list *)

Lemma before_key_le rev a b : before rev a b → key_le rev a b = true.
Proof.
  unfold before, key_le. destruct rev; intros [H|[H _]]; apply Z.leb_le; lia.
Qed.

Lemma price_time_sorted rev l : price_time rev l → price_sorted rev l.
Proof.
  induction 1 as [|x l Hl IH Hx]; constructor; [done|].
  eapply Forall_impl; [exact Hx|]. intros b. apply before_key_le.
Qed.

Lemma sorted_id rev l : price_sorted rev l → sorted rev l = l.
Proof.
  induction 1 as [|x l Hl IH Hx]; simpl; [done|].
  rewrite IH. destruct Hx as [|y l Hy _]; simpl; [done|]. by rewrite Hy.
Qed.

Lemma find_none_sorted order best rest :
  price_sorted (negb (is_buy order)) (best :: rest) →
  crosses order best = false →
  Forall (fun r => crosses order r = false) (best :: rest).
Proof.
  intros Hs Hb. apply StronglySorted_inv in Hs as [_ Hall].
  constructor; [done|].
  eapply Forall_impl; [exact Hall|]. intros r Hr. simpl in Hr.
  revert Hb Hr. unfold crosses, match_condition, key_le.
  destruct (is_buy order); simpl; intros Hb Hr.
  - apply Z.leb_gt in Hb. apply Z.leb_le in Hr. apply Z.leb_gt. lia.
  - rewrite Z.geb_leb in Hb. apply Z.leb_gt in Hb. apply Z.leb_le in Hr.
    rewrite Z.geb_leb. apply Z.leb_gt. lia.
Qed.

Lemma find_none_Forall (f : Resting → bool) l :
  Forall (fun r => f r = false) l → find f l = None.
Proof.
  induction 1 as [|x l Hx _ IH]; simpl; [done|]. by rewrite Hx.
Qed.

Lemma set_quantity_fresh target q l :
  target ∉ map oid l → set_quantity target q l = l.
Proof.
  unfold set_quantity.
  induction l as [|x l IH]; cbn [map]; [done|]. intros Hn.
  apply not_elem_of_cons in Hn as [Hx Hl].
  destruct (Nat.eqb_spec (oid x) target) as [E|_]; [congruence|].
  by rewrite IH.
Qed.

Lemma set_quantity_head q best rest :
  NoDup (map oid (best :: rest)) →
  set_quantity (oid best) q (best :: rest) = with_quantity q best :: rest.
Proof.
  intros Hnd. cbn [map] in Hnd. apply NoDup_cons in Hnd as [Hn _].
  unfold set_quantity. cbn [map].
  rewrite Nat.eqb_refl. f_equal. by apply set_quantity_fresh.
Qed.

Lemma front_matching_stop order l rem :
  (0 <? rem) && (0 <? length l)%nat = false →
  front_matching order l rem = ([], l, rem).
Proof.
  destruct l as [|best rest]; simpl; [done|].
  rewrite andb_true_r. by intros ->.
Qed.

(** On a list sorted by price with distinct objects, an iteration of the
    code's loop acts on the front of the list. *)
Lemma loop_body_sorted order best rest rem m ts :
  price_sorted (negb (is_buy order)) (best :: rest) →
  NoDup (map oid (best :: rest)) →
  loop_body order (mkLoop (best :: rest) rem m ts) =
  Ok (if crosses order best then
        if quantity (dict best) =? rem then
          mkLoop rest 0 true (ts ++ [make_trade order best rem])
        else if quantity (dict best) >? rem then
          mkLoop (with_quantity (quantity (dict best) - rem) best :: rest)
                 0 true (ts ++ [make_trade order best rem])
        else
          mkLoop rest (rem - quantity (dict best)) true
                 (ts ++ [make_trade order best (quantity (dict best))])
      else mkLoop (best :: rest) rem false ts).
Proof.
  intros Hs Hnd. unfold loop_body, sort_opposite.
  cbn [opposite_list remaining_qty trades].
  rewrite (sorted_id _ _ Hs).
  destruct (crosses order best) eqn:Hc.
  - cbn [find]. fold (crosses order best). rewrite Hc.
    cbn [index]. rewrite bool_decide_eq_true_2 by done. cbn [mbind result_bind].
    destruct (quantity (dict best) =? rem); [done|].
    destruct (quantity (dict best) >? rem); [|done].
    cbn [mbind result_bind]. by rewrite (set_quantity_head _ _ _ Hnd).
  - rewrite find_none_Forall; [done|].
    by apply (find_none_sorted order best rest).
Qed.

Lemma while_loop_front fuel order l rem ts st' :
  price_sorted (negb (is_buy order)) l →
  NoDup (map oid l) →
  while_loop fuel order (mkLoop l rem true ts) = Ok st' →
  (trades st', opposite_list st', remaining_qty st')
  = (ts ++ (front_matching order l rem).1.1,
     (front_matching order l rem).1.2,
     (front_matching order l rem).2).
Proof.
  revert l rem ts. induction fuel as [|fuel IH]; intros l rem ts Hs Hnd.
  - simpl. unfold loop_cond. cbn [opposite_list remaining_qty matched].
    rewrite andb_true_r.
    destruct ((0 <? rem) && (0 <? length l)%nat) eqn:Hc; [done|].
    intros [= <-]. rewrite (front_matching_stop _ _ _ Hc). simpl.
    by rewrite app_nil_r.
  - cbn [while_loop]. unfold loop_cond at 1.
    cbn [opposite_list remaining_qty matched]. rewrite andb_true_r.
    destruct ((0 <? rem) && (0 <? length l)%nat) eqn:Hc.
    2:{ intros [= <-]. rewrite (front_matching_stop _ _ _ Hc). simpl.
        by rewrite app_nil_r. }
    apply andb_prop in Hc as [Hrem Hl].
    destruct l as [|best rest]; [done|].
    rewrite (loop_body_sorted _ _ _ _ _ _ Hs Hnd). cbn [mbind result_bind].
    cbn [front_matching]. rewrite Hrem. cbn [andb].
    apply Z.ltb_lt in Hrem.
    destruct (crosses order best) eqn:Hcr.
    + destruct (Z.eqb_spec (quantity (dict best)) rem) as [E|NE].
      * rewrite while_loop_exit by done. intros [= <-].
        rewrite E, Z.leb_refl, Z.sub_diag.
        rewrite front_matching_stop by done. done.
      * destruct (Z.gtb_spec (quantity (dict best)) rem) as [G|G].
        -- rewrite while_loop_exit by done. intros [= <-].
           destruct (Z.leb_spec (quantity (dict best)) rem); [lia|done].
        -- intros Hw. apply IH in Hw.
           ++ destruct (Z.leb_spec (quantity (dict best)) rem); [|lia].
              destruct (front_matching order rest _) as [[ts1 l1] r1].
              simpl in *. rewrite <- app_assoc in Hw. done.
           ++ by apply StronglySorted_inv in Hs as [? _].
           ++ by apply NoDup_cons in Hnd as [_ ?].
    + rewrite while_loop_exit.
      * intros [= <-]. simpl. by rewrite app_nil_r.
      * unfold loop_cond. simpl. by rewrite andb_false_r.
Qed.

(** Case analysis and induction following [front_matching]. *)
Lemma front_matching_cases order
    (P : list Resting → Z → list Trade → list Resting → Z → Prop) :
  (∀ rem, P [] rem [] [] rem) →
  (∀ best rest rem,
      (0 <? rem) && crosses order best = false →
      P (best :: rest) rem [] (best :: rest) rem) →
  (∀ best rest rem ts l' rem',
      0 < rem → crosses order best = true →
      quantity (dict best) ≤ rem →
      front_matching order rest (rem - quantity (dict best))
        = (ts, l', rem') →
      P rest (rem - quantity (dict best)) ts l' rem' →
      P (best :: rest) rem
        (make_trade order best (quantity (dict best)) :: ts) l' rem') →
  (∀ best rest rem,
      0 < rem → crosses order best = true →
      rem < quantity (dict best) →
      P (best :: rest) rem [make_trade order best rem]
        (with_quantity (quantity (dict best) - rem) best :: rest) 0) →
  ∀ l rem ts l' rem',
    front_matching order l rem = (ts, l', rem') → P l rem ts l' rem'.
Proof.
  intros Hnil Hstop Hfull Hpart l.
  induction l as [|best rest IH]; intros rem ts l' rem'; cbn [front_matching].
  - intros [= <- <- <-]. apply Hnil.
  - destruct ((0 <? rem) && crosses order best) eqn:Hc.
    + apply andb_prop in Hc as [Hrem Hcr]. apply Z.ltb_lt in Hrem.
      destruct (Z.leb_spec (quantity (dict best)) rem) as [Hle|Hgt].
      * destruct (front_matching order rest _) as [[ts1 l1] r1] eqn:Hrec.
        intros [= <- <- <-]. apply Hfull; auto.
      * intros [= <- <- <-]. by apply Hpart.
    + intros [= <- <- <-]. by apply Hstop.
Qed.

(** ** Insertion of the residual order *)

Lemma key_le_total rev a b : key_le rev a b = false → key_le rev b a = true.
Proof.
  unfold key_le. destruct rev; intros H; apply Z.leb_gt in H;
    apply Z.leb_le; lia.
Qed.

Lemma key_le_trans rev a b c :
  key_le rev a b = true → key_le rev b c = true → key_le rev a c = true.
Proof.
  unfold key_le. destruct rev; intros H1 H2;
    apply Z.leb_le in H1; apply Z.leb_le in H2; apply Z.leb_le; lia.
Qed.

Lemma insert_by_head rev a l :
  Forall (fun b => key_le rev a b = true) l → insert_by rev a l = a :: l.
Proof. destruct 1 as [|y l Hy _]; simpl; [done|]. by rewrite Hy. Qed.

Lemma place_perm rev x l : place rev x l ≡ₚ x :: l.
Proof.
  induction l as [|y l IH]; cbn [place]; [done|].
  destruct (key_le rev y x); [|done].
  rewrite IH. apply Permutation_swap.
Qed.

(** Appending then sorting, as lines 143-149 do, is that insertion when the
    list was sorted by price. *)
Lemma sorted_snoc rev l x :
  price_sorted rev l → sorted rev (l ++ [x]) = place rev x l.
Proof.
  induction 1 as [|a l Hl IH Ha]; [done|].
  cbn [app sorted place]. rewrite IH.
  destruct (key_le rev a x) eqn:Hax.
  - apply insert_by_head. rewrite place_perm. by constructor.
  - assert (place rev x l = x :: l) as ->.
    { destruct l as [|y l]; cbn [place]; [done|].
      apply Forall_cons in Ha as [Hay _].
      destruct (key_le rev y x) eqn:Hyx; [|done].
      by rewrite (key_le_trans _ _ _ _ Hay Hyx) in Hax. }
    cbn [insert_by]. rewrite Hax. f_equal. by apply insert_by_head.
Qed.

Lemma place_split rev x l :
  ∃ l1 l2, l = l1 ++ l2 ∧ place rev x l = l1 ++ x :: l2
           ∧ Forall (fun y => key_le rev y x = true) l1
           ∧ (∀ y, head l2 = Some y → key_le rev y x = false).
Proof.
  induction l as [|y l (l1 & l2 & -> & E & H1 & H2)]; cbn [place].
  - exists [], []. repeat split; [constructor | done].
  - destruct (key_le rev y x) eqn:Hyx.
    + exists (y :: l1), l2. rewrite E. repeat split; auto.
    + exists [], (y :: l1 ++ l2). repeat split; [constructor |].
      by intros ? [= <-].
Qed.

(** ** Shape of a matching pass *)

Lemma sum_qty_app l1 l2 : sum_qty (l1 ++ l2) = sum_qty l1 + sum_qty l2.
Proof. induction l1 as [|x l1 IH]; simpl; [done|]. rewrite IH. lia. Qed.

Lemma sum_trades_app l1 l2 :
  sum_trades (l1 ++ l2) = sum_trades l1 + sum_trades l2.
Proof. induction l1 as [|x l1 IH]; simpl; [done|]. rewrite IH. lia. Qed.

Lemma sum_trades_full order consumed :
  sum_trades (full_trades order consumed) = sum_qty consumed.
Proof. induction consumed as [|x l IH]; simpl; [done|]. by rewrite IH. Qed.

(** A pass uses up a prefix of the opposite list, entry after entry, and
    then possibly a part of the next entry. *)
Lemma front_matching_shape order l rem ts l' rem' :
  front_matching order l rem = (ts, l', rem') →
  ∃ consumed rest,
    l = consumed ++ rest
    ∧ Forall (fun r => crosses order r = true) consumed
    ∧ ((ts = full_trades order consumed ∧ l' = rest
        ∧ rem' = rem - sum_qty consumed)
       ∨ (∃ h t,
            rest = h :: t ∧ crosses order h = true
            ∧ 0 < rem - sum_qty consumed < quantity (dict h)
            ∧ ts = full_trades order consumed
                     ++ [make_trade order h (rem - sum_qty consumed)]
            ∧ l' = with_quantity
                     (quantity (dict h) - (rem - sum_qty consumed)) h :: t
            ∧ rem' = 0)).
Proof.
  revert l rem ts l' rem'.
  apply (front_matching_cases order (fun l rem ts l' rem' =>
    ∃ consumed rest,
      l = consumed ++ rest
      ∧ Forall (fun r => crosses order r = true) consumed
      ∧ ((ts = full_trades order consumed ∧ l' = rest
          ∧ rem' = rem - sum_qty consumed)
         ∨ (∃ h t,
              rest = h :: t ∧ crosses order h = true
              ∧ 0 < rem - sum_qty consumed < quantity (dict h)
              ∧ ts = full_trades order consumed
                       ++ [make_trade order h (rem - sum_qty consumed)]
              ∧ l' = with_quantity
                       (quantity (dict h) - (rem - sum_qty consumed)) h :: t
              ∧ rem' = 0)))).
  - intros rem. exists [], []. repeat split; [constructor|].
    left. repeat split. simpl. lia.
  - intros best rest rem _. exists [], (best :: rest).
    repeat split; [constructor|]. left. repeat split. simpl. lia.
  - intros best rest rem ts l' rem' Hrem Hcr Hle _
      (consumed & rest' & -> & Hall & Hcase).
    exists (best :: consumed), rest'. repeat split; [by constructor|].
    cbn [sum_qty foldr]. fold (sum_qty consumed).
    replace (rem - (quantity (dict best) + sum_qty consumed))
      with (rem - quantity (dict best) - sum_qty consumed) by lia.
    destruct Hcase as [(-> & -> & ->)|(h & t & -> & Hh & Hr & -> & -> & ->)].
    + left. done.
    + right. exists h, t. done.
  - intros best rest rem Hrem Hcr Hlt. exists [], (best :: rest).
    repeat split; [constructor|]. right. exists best, rest.
    cbn [sum_qty foldr]. rewrite Z.sub_0_r. repeat split; auto; lia.
Qed.

(** When a pass leaves quantity to place, nothing left on the opposite
    list crosses the order. *)
Lemma front_matching_exhausts order l rem ts l' rem' :
  front_matching order l rem = (ts, l', rem') →
  price_sorted (negb (is_buy order)) l →
  0 < rem' →
  Forall (fun r => crosses order r = false) l'.
Proof.
  revert l rem ts l' rem'.
  apply (front_matching_cases order (fun l rem ts l' rem' =>
    price_sorted (negb (is_buy order)) l → 0 < rem' →
    Forall (fun r => crosses order r = false) l')).
  - constructor.
  - intros best rest rem Hc Hs Hrem. apply Z.ltb_lt in Hrem.
    rewrite Hrem in Hc. by apply find_none_sorted.
  - intros best rest rem ts l' rem' _ _ _ _ IH Hs Hrem.
    apply IH; [|done]. by apply StronglySorted_inv in Hs as [? _].
  - intros. lia.
Qed.

Lemma front_matching_remaining order l rem ts l' rem' :
  front_matching order l rem = (ts, l', rem') →
  rem = rem' + sum_trades ts ∧ (0 ≤ rem → 0 ≤ rem').
Proof.
  revert l rem ts l' rem'.
  apply (front_matching_cases order (fun l rem ts l' rem' =>
    rem = rem' + sum_trades ts ∧ (0 ≤ rem → 0 ≤ rem'))); simpl.
  - intros. lia.
  - intros. lia.
  - intros best rest rem ts l' rem' Hrem _ Hle _ [IH1 IH2]. lia.
  - intros. lia.
Qed.

(** ** Consistency is preserved *)

Lemma side_ok_nil rev next : side_ok rev next [].
Proof. repeat split; constructor. Qed.

Lemma book_ok_empty next : book_ok next empty_book.
Proof.
  repeat split; try constructor. intros x y Hx. by apply elem_of_nil in Hx.
Qed.

Lemma consistent_book self sym :
  consistent self →
  book_ok (next_oid self) (default empty_book (order_books self !! sym)).
Proof.
  intros Hc. destruct (order_books self !! sym) as [b|] eqn:Hb; simpl.
  - by apply (Hc sym).
  - apply book_ok_empty.
Qed.

Lemma side_ok_mono rev next next' l :
  side_ok rev next l → (next ≤ next')%nat → side_ok rev next' l.
Proof.
  intros (H1 & H2 & H3 & H4) Hle. repeat split; auto.
  eapply Forall_impl; [exact H4|]. simpl. intros. lia.
Qed.

Lemma side_ok_tail rev next x l : side_ok rev next (x :: l) → side_ok rev next l.
Proof.
  intros (H1 & H2 & H3 & H4). repeat split.
  - by apply StronglySorted_inv in H1 as [? _].
  - cbn [map] in H2. by apply NoDup_cons in H2 as [_ ?].
  - by apply Forall_cons in H3 as [_ ?].
  - by apply Forall_cons in H4 as [_ ?].
Qed.

Lemma side_ok_suffix rev next l1 l2 :
  side_ok rev next (l1 ++ l2) → side_ok rev next l2.
Proof.
  induction l1 as [|x l1 IH]; [done|]. intros H. apply IH.
  by apply side_ok_tail in H.
Qed.

Lemma side_ok_with_quantity rev next q h t :
  0 < q → side_ok rev next (h :: t) →
  side_ok rev next (with_quantity q h :: t).
Proof.
  intros Hq (H1 & H2 & H3 & H4). repeat split.
  - apply StronglySorted_inv in H1 as [Ht Hh]. constructor; [done|].
    exact Hh.
  - exact H2.
  - apply Forall_cons in H3 as [_ H3]. by constructor.
  - apply Forall_cons in H4 as [Hh H4]. by constructor.
Qed.

Lemma front_matching_side_ok order rev next l rem ts l' rem' :
  front_matching order l rem = (ts, l', rem') →
  side_ok rev next l → side_ok rev next l'.
Proof.
  intros Hf Hok.
  destruct (front_matching_shape _ _ _ _ _ _ Hf)
    as (consumed & rest & -> & _ & Hcase).
  apply side_ok_suffix in Hok.
  destruct Hcase as [(_ & -> & _)|(h & t & -> & _ & Hr & _ & -> & _)];
    [done|].
  apply side_ok_with_quantity; [lia|done].
Qed.

(** The entries left after a pass are entries of the list before it, up to
    the quantity. *)
Lemma front_matching_members order l rem ts l' rem' y :
  front_matching order l rem = (ts, l', rem') →
  y ∈ l' →
  ∃ x, x ∈ l ∧ oid y = oid x ∧ price (dict y) = price (dict x)
       ∧ username (dict y) = username (dict x)
       ∧ quantity (dict y) ≤ quantity (dict x).
Proof.
  intros Hf Hy.
  destruct (front_matching_shape _ _ _ _ _ _ Hf)
    as (consumed & rest & -> & _ & Hcase).
  destruct Hcase as [(_ & -> & _)|(h & t & -> & _ & Hr & _ & -> & _)].
  - exists y. repeat split; [|lia]. apply elem_of_app. by right.
  - apply elem_of_cons in Hy as [->|Hy].
    + exists h. repeat split; [|simpl; lia].
      apply elem_of_app. right. by left.
    + exists y. repeat split; [|lia].
      apply elem_of_app. right. by right.
Qed.

Lemma key_le_before rev y x :
  key_le rev y x = true → (oid y < oid x)%nat → before rev y x.
Proof.
  unfold key_le, before. destruct rev; intros H Ho; apply Z.leb_le in H.
  - destruct (Z.eq_dec (price (dict y)) (price (dict x))); [by right|].
    left. lia.
  - destruct (Z.eq_dec (price (dict y)) (price (dict x))); [by right|].
    left. lia.
Qed.

Lemma key_gt_before rev x y z :
  key_le rev y x = false → key_le rev y z = true → before rev x z.
Proof.
  unfold key_le, before. destruct rev; intros H1 H2;
    apply Z.leb_gt in H1; apply Z.leb_le in H2; left; lia.
Qed.

Lemma key_le_refl rev y : key_le rev y y = true.
Proof. unfold key_le. destruct rev; apply Z.leb_refl. Qed.

Lemma place_price_time rev x l :
  price_time rev l → Forall (fun y => (oid y < oid x)%nat) l →
  price_time rev (place rev x l).
Proof.
  induction 1 as [|y l Hl IH Hy]; intros Hoid; cbn [place].
  - repeat constructor.
  - apply Forall_cons in Hoid as [Hyx Hoid].
    destruct (key_le rev y x) eqn:Hk.
    + constructor; [by apply IH|].
      rewrite place_perm. constructor; [by apply key_le_before|done].
    + constructor; [by constructor|].
      constructor.
      * apply (key_gt_before rev x y y Hk (key_le_refl rev y)).
      * eapply Forall_impl; [exact Hy|]. intros z Hz.
        apply (key_gt_before rev x y z Hk). by apply before_key_le.
Qed.

Lemma place_side_ok rev next x l :
  side_ok rev next l → oid x = next → 0 < quantity (dict x) →
  side_ok rev (S next) (place rev x l).
Proof.
  intros (H1 & H2 & H3 & H4) Hx Hq. repeat split.
  - apply place_price_time; [done|]. by rewrite Hx.
  - rewrite place_perm. cbn [map]. apply NoDup_cons. split; [|done].
    rewrite Hx. intros Hin. apply list_elem_of_fmap in Hin as (y & Hy & Hin).
    rewrite Forall_forall in H4. specialize (H4 y Hin). lia.
  - rewrite place_perm. by constructor.
  - rewrite place_perm. constructor; [lia|].
    eapply Forall_impl; [exact H4|]. simpl. intros. lia.
Qed.

Lemma not_crosses_buy order y :
  is_buy order = true → crosses order y = false →
  price order < price (dict y).
Proof.
  unfold crosses, match_condition. intros ->. intros H.
  apply Z.leb_gt in H. lia.
Qed.

Lemma not_crosses_sell order y :
  is_buy order = false → crosses order y = false →
  price (dict y) < price order.
Proof.
  unfold crosses, match_condition. intros ->. rewrite Z.geb_leb.
  intros H. apply Z.leb_gt in H. lia.
Qed.

Lemma process_unfold self order :
  let book := default empty_book (order_books self !! symbol order) in
  process self order =
  ((front_matching order (if is_buy order then sell book else buy book)
                   (quantity order)).1.1,
   {| order_books :=
        <[symbol order := book_after (next_oid self) order book]>
          (order_books self);
      next_oid := next_after (next_oid self) order book |}).
Proof.
  unfold process, book_after, next_after. simpl.
  destruct (front_matching _ _ _) as [[ts l'] rem']. done.
Qed.

Lemma next_after_le next order book :
  (next ≤ next_after next order book)%nat.
Proof.
  unfold next_after. destruct (front_matching _ _ _) as [[ts l'] rem'].
  destruct (0 <? rem'); lia.
Qed.

Lemma book_after_ok next order book :
  book_ok next book →
  book_ok (next_after next order book) (book_after next order book).
Proof.
  intros (Hbuy & Hsell & Hnc). unfold book_after, next_after.
  destruct (front_matching _ _ _) as [[ts l'] rem'] eqn:Hf.
  destruct (is_buy order) eqn:Hside.
  - pose proof (front_matching_side_ok _ _ _ _ _ _ _ _ Hf Hsell) as Hl'.
    destruct (Z.ltb_spec 0 rem') as [Hrem|Hrem].
    + split; [by apply place_side_ok|].
      split; [by apply (side_ok_mono _ next); [|lia]|].
      intros x y Hx Hy. cbn [buy sell] in *.
      rewrite place_perm in Hx. apply elem_of_cons in Hx as [->|Hx].
      * simpl. apply (not_crosses_buy order y Hside).
        assert (Forall (fun r => crosses order r = false) l') as Hex.
        { eapply front_matching_exhausts; [exact Hf| |done].
          rewrite Hside. apply price_time_sorted. apply Hsell. }
        rewrite Forall_forall in Hex. by apply Hex.
      * destruct (front_matching_members _ _ _ _ _ _ _ Hf Hy)
          as (y0 & Hy0 & _ & -> & _).
        by apply Hnc.
    + split; [done|]. split; [done|].
      intros x y Hx Hy. cbn [buy sell] in *.
      destruct (front_matching_members _ _ _ _ _ _ _ Hf Hy)
        as (y0 & Hy0 & _ & -> & _).
      by apply Hnc.
  - pose proof (front_matching_side_ok _ _ _ _ _ _ _ _ Hf Hbuy) as Hl'.
    destruct (Z.ltb_spec 0 rem') as [Hrem|Hrem].
    + split; [by apply (side_ok_mono _ next); [|lia]|].
      split; [by apply place_side_ok|].
      intros x y Hx Hy. cbn [buy sell] in *.
      rewrite place_perm in Hy. apply elem_of_cons in Hy as [->|Hy].
      * simpl. apply (not_crosses_sell order x Hside).
        assert (Forall (fun r => crosses order r = false) l') as Hex.
        { eapply front_matching_exhausts; [exact Hf| |done].
          rewrite Hside. apply price_time_sorted. apply Hbuy. }
        rewrite Forall_forall in Hex. by apply Hex.
      * destruct (front_matching_members _ _ _ _ _ _ _ Hf Hx)
          as (x0 & Hx0 & _ & -> & _).
        by apply Hnc.
    + split; [done|]. split; [done|].
      intros x y Hx Hy. cbn [buy sell] in *.
      destruct (front_matching_members _ _ _ _ _ _ _ Hf Hx)
        as (x0 & Hx0 & _ & -> & _).
      by apply Hnc.
Qed.

Lemma book_ok_mono next next' b :
  book_ok next b → (next ≤ next')%nat → book_ok next' b.
Proof.
  intros (H1 & H2 & H3) Hle. repeat split; try apply H3;
    eapply side_ok_mono; eauto; try apply H1; try apply H2.
Qed.

Lemma process_consistent self order :
  consistent self → consistent (process self order).2.
Proof.
  intros Hc. rewrite process_unfold. cbn [snd]. intros sym b. cbn.
  destruct (decide (symbol order = sym)) as [<-|Hne].
  - rewrite lookup_insert_eq. intros [= <-].
    apply book_after_ok. by apply consistent_book.
  - rewrite lookup_insert_ne by done. intros Hb.
    eapply book_ok_mono; [by apply (Hc sym)|]. apply next_after_le.
Qed.

Lemma init_symbol_next self sym :
  next_oid (_init_symbol_if_needed self sym) = next_oid self.
Proof. unfold _init_symbol_if_needed. by destruct (order_books self !! sym). Qed.

Lemma init_symbol_insert self sym (b : Book) :
  <[sym := b]> (order_books (_init_symbol_if_needed self sym))
  = <[sym := b]> (order_books self).
Proof.
  unfold _init_symbol_if_needed.
  destruct (order_books self !! sym); [done|]. simpl.
  apply insert_insert_eq.
Qed.

(** On a consistent state the code computes what [process] describes. *)
Lemma on_order_received_process fuel self order r :
  consistent self →
  on_order_received fuel self order = Ok r →
  r = process self order.
Proof.
  intros Hc. unfold on_order_received.
  destruct (get_book_init self (symbol order)) as (b & -> & Hb).
  cbn [mbind result_bind].
  destruct (while_loop _ _ _) as [st| |] eqn:Hw; [|done..].
  assert (book_ok (next_oid self) b) as (Hbuy & Hsell & _).
  { rewrite Hb. by apply consistent_book. }
  apply while_loop_front in Hw.
  2:{ destruct (is_buy order); apply price_time_sorted;
        [apply Hsell|apply Hbuy]. }
  2:{ destruct (is_buy order); [apply Hsell|apply Hbuy]. }
  cbn [mbind result_bind]. rewrite init_symbol_next.
  unfold process. rewrite <- Hb.
  destruct (front_matching _ _ _) as [[ts l'] rem'].
  cbn in Hw. injection Hw as Hts Hl Hrem. rewrite Hts, Hl, Hrem.
  destruct (0 <? rem'); rewrite init_symbol_insert; [|by intros [= <-]].
  intros [= <-]. rewrite sorted_snoc; [done|].
  destruct (is_buy order); apply price_time_sorted;
    [apply Hbuy|apply Hsell].
Qed.

Lemma init_consistent : consistent init.
Proof. intros sym b. unfold init. simpl. by rewrite lookup_empty. Qed.

Lemma on_order_received_consistent fuel self order ts self' :
  consistent self →
  on_order_received fuel self order = Ok (ts, self') →
  consistent self'.
Proof.
  intros Hc Hr. apply (on_order_received_process _ _ _ _ Hc) in Hr.
  replace self' with (process self order).2 by (by rewrite <- Hr).
  by apply process_consistent.
Qed.

Lemma reachable_consistent self : reachable self → consistent self.
Proof.
  induction 1 as [|fuel self order ts self' _ IH Hr].
  - apply init_consistent.
  - by apply (on_order_received_consistent fuel self order ts).
Qed.

Lemma run_reachable fuel self orders ts self' :
  reachable self → run fuel self orders = Ok (ts, self') → reachable self'.
Proof.
  revert self ts. induction orders as [|order rest IH]; intros self ts Hs.
  - simpl. by intros [= _ <-].
  - cbn [run].
    destruct (on_order_received fuel self order) as [[ts1 self1]| |] eqn:H1;
      [|done..].
    cbn [mbind result_bind].
    destruct (run fuel self1 rest) as [[ts2 self2]| |] eqn:H2; [|done..].
    cbn [mbind result_bind]. intros [= _ <-].
    apply (IH self1 ts2); [|done].
    by apply (reachable_step fuel self order ts1).
Qed.

(** Any call returns, without raising, once the fuel exceeds the length of
    the opposite list. *)
Lemma on_order_received_total fuel self order :
  let book := default empty_book (order_books self !! symbol order) in
  (length (if is_buy order then sell book else buy book) < fuel)%nat →
  ∃ r, on_order_received fuel self order = Ok r.
Proof.
  intros book Hfuel. unfold on_order_received.
  destruct (get_book_init self (symbol order)) as (b & -> & Hb).
  cbn [mbind result_bind]. fold book in Hb. subst b.
  edestruct (while_loop_total fuel order) as [st ->]; [exact Hfuel|].
  cbn [mbind result_bind].
  destruct (0 <? remaining_qty st); by eexists.
Qed.

(** ** Facts about one call *)

Lemma on_order_received_front fuel self order ts self' :
  consistent self →
  on_order_received fuel self order = Ok (ts, self') →
  ∃ l' rem',
    front_matching order (opposite_of order (book_of self (symbol order)))
                   (quantity order) = (ts, l', rem')
    ∧ opposite_of order (book_of self' (symbol order)) = l'
    ∧ same_of order (book_of self' (symbol order))
      = (if 0 <? rem' then
           place (is_buy order)
                 {| oid := next_oid self; dict := new_order order rem' |}
                 (same_of order (book_of self (symbol order)))
         else same_of order (book_of self (symbol order)))
    ∧ next_oid self' = (if 0 <? rem' then S (next_oid self)
                        else next_oid self).
Proof.
  intros Hc Hr. apply (on_order_received_process _ _ _ _ Hc) in Hr.
  unfold process in Hr. unfold opposite_of, same_of, book_of.
  destruct (front_matching _ _ _) as [[ts0 l'] rem'].
  injection Hr as -> ->. exists l', rem'. cbn [order_books next_oid].
  rewrite lookup_insert_eq. cbn [default].
  destruct (is_buy order); done.
Qed.

Lemma front_matching_trades order l rem ts l' rem' t :
  front_matching order l rem = (ts, l', rem') →
  t ∈ ts →
  ∃ maker, maker ∈ l ∧ crosses order maker = true
           ∧ t = make_trade order maker (trade_qty t).
Proof.
  revert l rem ts l' rem'.
  apply (front_matching_cases order (fun l rem ts l' rem' =>
    t ∈ ts →
    ∃ maker, maker ∈ l ∧ crosses order maker = true
             ∧ t = make_trade order maker (trade_qty t))).
  - intros rem Ht. by apply elem_of_nil in Ht.
  - intros best rest rem _ Ht. by apply elem_of_nil in Ht.
  - intros best rest rem ts l' rem' Hrem Hcr Hle _ IH Ht.
    apply elem_of_cons in Ht as [->|Ht].
    + exists best. simpl. repeat split; [by left|done].
    + destruct (IH Ht) as (maker & Hin & Hc & Ht').
      exists maker. repeat split; [by right|done|done].
  - intros best rest rem Hrem Hcr Hlt Ht.
    apply list_elem_of_singleton in Ht as ->.
    exists best. simpl. repeat split; [by left|done].
Qed.

Lemma demo_reachable : reachable demo_state.
Proof.
  eapply (run_reachable 10 init demo_orders); [apply reachable_init|].
  vm_compute. reflexivity.
Qed.

Lemma demo_call :
  on_order_received 10 demo_state demo_order = Ok (demo_trades, demo_state').
Proof. vm_compute. reflexivity. Qed.

(** ** Maker price *)

(** C1. In a reachable state, every trade a call emits is made against an
    order resting on the opposite list when the call starts, which crosses
    the incoming order; the trade carries that resting order's price and
    name, so whenever the two prices differ the trade is not at the
    incoming order's price. *)
Theorem maker_price_law fuel self order ts self' t :
  reachable self →
  on_order_received fuel self order = Ok (ts, self') →
  t ∈ ts →
  ∃ maker,
    maker ∈ opposite_of order (book_of self (symbol order))
    ∧ crosses order maker = true
    ∧ t = make_trade order maker (trade_qty t)
    ∧ trade_price t = price (dict maker)
    ∧ (price (dict maker) ≠ price order → trade_price t ≠ price order).
Proof.
  intros Hr Hcall Ht. apply reachable_consistent in Hr.
  destruct (on_order_received_front _ _ _ _ _ Hr Hcall)
    as (l' & rem' & Hf & _).
  destruct (front_matching_trades _ _ _ _ _ _ _ Hf Ht)
    as (maker & Hin & Hc & Heq).
  exists maker. repeat split; auto.
  - by rewrite Heq.
  - rewrite Heq. simpl. done.
Qed.

Lemma maker_price_law_witness :
  ∃ maker,
    maker ∈ opposite_of demo_order (book_of demo_state "AAPL")
    ∧ crosses demo_order maker = true
    ∧ mkTrade "AAPL" "eve" "bob" 100 2
      = make_trade demo_order maker 2
    ∧ 100 = price (dict maker)
    ∧ (price (dict maker) ≠ 101 → 100 ≠ 101).
Proof.
  apply (maker_price_law 10 demo_state demo_order demo_trades demo_state'
           (mkTrade "AAPL" "eve" "bob" 100 2)).
  - exact demo_reachable.
  - exact demo_call.
  - vm_compute. right. left.
Defined.

(** ** Book ordering *)

Lemma StronglySorted_weaken {A} (R R' : A → A → Prop) l :
  (∀ a b, R a b → R' a b) → StronglySorted R l → StronglySorted R' l.
Proof.
  intros HR. induction 1 as [|x l Hl IH Hx]; constructor; [done|].
  eapply Forall_impl; [exact Hx|]. auto.
Qed.

(** C2. In every reachable state the buy list of each symbol is sorted by
    price descending and the sell list by price ascending, and within each
    list entries of equal price stand in their order of arrival (the entry
    allocated earlier comes first). *)
Theorem book_ordering_invariant self sym b :
  reachable self →
  order_books self !! sym = Some b →
  StronglySorted (fun x y => price (dict y) ≤ price (dict x)) (buy b)
  ∧ StronglySorted (fun x y => price (dict x) ≤ price (dict y)) (sell b)
  ∧ StronglySorted
      (fun x y => price (dict x) = price (dict y) → (oid x < oid y)%nat)
      (buy b)
  ∧ StronglySorted
      (fun x y => price (dict x) = price (dict y) → (oid x < oid y)%nat)
      (sell b).
Proof.
  intros Hr Hb. apply reachable_consistent in Hr.
  destruct (Hr sym b Hb) as ((Hbuy & _) & (Hsell & _) & _).
  repeat split.
  - eapply StronglySorted_weaken; [|exact Hbuy].
    unfold before. simpl. intros a c [H|[H _]]; lia.
  - eapply StronglySorted_weaken; [|exact Hsell].
    unfold before. simpl. intros a c [H|[H _]]; lia.
  - eapply StronglySorted_weaken; [|exact Hbuy].
    unfold before. simpl. intros a c [H|[_ H]] E; lia.
  - eapply StronglySorted_weaken; [|exact Hsell].
    unfold before. simpl. intros a c [H|[_ H]] E; lia.
Qed.

Lemma book_ordering_invariant_witness :
  StronglySorted (fun x y => price (dict y) ≤ price (dict x))
    (buy (book_of demo_state "AAPL"))
  ∧ StronglySorted (fun x y => price (dict x) ≤ price (dict y))
      (sell (book_of demo_state "AAPL"))
  ∧ StronglySorted
      (fun x y => price (dict x) = price (dict y) → (oid x < oid y)%nat)
      (buy (book_of demo_state "AAPL"))
  ∧ StronglySorted
      (fun x y => price (dict x) = price (dict y) → (oid x < oid y)%nat)
      (sell (book_of demo_state "AAPL")).
Proof.
  apply (book_ordering_invariant demo_state "AAPL").
  - exact demo_reachable.
  - vm_compute. reflexivity.
Defined.

(** ** No crossed book at rest *)

Lemma highest_price_elem l :
  l ≠ [] → ∃ x, x ∈ l ∧ highest_price l = Some (price (dict x)).
Proof.
  induction l as [|y l IH]; [done|]. intros _. cbn [highest_price foldr].
  fold (highest_price l).
  destruct l as [|z l].
  - exists y. split; [by left|done].
  - destruct IH as (x & Hx & ->); [done|].
    destruct (Z.max_spec (price (dict y)) (price (dict x))) as [[_ ->]|[_ ->]].
    + exists x. split; [by right|done].
    + exists y. split; [by left|done].
Qed.

Lemma lowest_price_elem l :
  l ≠ [] → ∃ x, x ∈ l ∧ lowest_price l = Some (price (dict x)).
Proof.
  induction l as [|y l IH]; [done|]. intros _. cbn [lowest_price foldr].
  fold (lowest_price l).
  destruct l as [|z l].
  - exists y. split; [by left|done].
  - destruct IH as (x & Hx & ->); [done|].
    destruct (Z.min_spec (price (dict y)) (price (dict x))) as [[_ ->]|[_ ->]].
    + exists y. split; [by left|done].
    + exists x. split; [by right|done].
Qed.

(** C4. In every reachable state, for each symbol, one side of the book is
    empty or the highest resting buy price is strictly below the lowest
    resting sell price. *)
Theorem no_cross_invariant self sym b :
  reachable self →
  order_books self !! sym = Some b →
  buy b = [] ∨ sell b = []
  ∨ ∃ bid ask, highest_price (buy b) = Some bid
               ∧ lowest_price (sell b) = Some ask
               ∧ bid < ask.
Proof.
  intros Hr Hb. apply reachable_consistent in Hr.
  destruct (Hr sym b Hb) as (_ & _ & Hnc).
  destruct (buy b) as [|x lb] eqn:Ebuy; [by left|].
  destruct (sell b) as [|y ls] eqn:Esell; [by right; left|].
  right. right.
  destruct (highest_price_elem (x :: lb)) as (hi & Hhi & ->); [done|].
  destruct (lowest_price_elem (y :: ls)) as (lo & Hlo & ->); [done|].
  do 2 eexists. repeat split. apply Hnc; [by rewrite Ebuy|by rewrite Esell].
Qed.

Lemma no_cross_invariant_witness :
  buy (book_of demo_state "AAPL") = []
  ∨ sell (book_of demo_state "AAPL") = []
  ∨ ∃ bid ask,
      highest_price (buy (book_of demo_state "AAPL")) = Some bid
      ∧ lowest_price (sell (book_of demo_state "AAPL")) = Some ask
      ∧ bid < ask.
Proof.
  apply (no_cross_invariant demo_state "AAPL").
  - exact demo_reachable.
  - vm_compute. reflexivity.
Defined.

(** ** Totality *)

(** Closes [valid] on a concrete order. *)
Ltac solve_valid :=
  unfold valid; cbn; split; [lia|];
  split; [lia|]; first [left; reflexivity | right; reflexivity].

Lemma on_order_received_fuel_mono fuel fuel' self order r :
  on_order_received fuel self order = Ok r → (fuel ≤ fuel')%nat →
  on_order_received fuel' self order = Ok r.
Proof.
  unfold on_order_received. intros H Hle.
  destruct (get_book _ _) as [b| |]; [|done..].
  cbn [mbind result_bind] in *.
  destruct (while_loop fuel _ _) as [st| |] eqn:Hw; [|done..].
  by rewrite (while_loop_fuel_mono _ _ _ _ _ Hw Hle).
Qed.

(** C7. For a valid order and a reachable state the call returns a list of
    trades and a new state, without raising: the loop stops within as many
    iterations as the opposite list has entries, plus one, and any larger
    budget gives the same result. *)
Theorem on_order_received_terminates self order :
  reachable self →
  valid order →
  ∃ ts self',
    ∀ fuel,
      (length (opposite_of order (book_of self (symbol order))) < fuel)%nat →
      on_order_received fuel self order = Ok (ts, self').
Proof.
  intros _ _.
  destruct (on_order_received_total
              (S (length (opposite_of order (book_of self (symbol order)))))
              self order) as [[ts self'] Hr].
  { unfold opposite_of, book_of. lia. }
  exists ts, self'. intros fuel Hfuel.
  apply (on_order_received_fuel_mono _ _ _ _ _ Hr). lia.
Qed.

Lemma on_order_received_terminates_witness :
  ∃ ts self',
    ∀ fuel,
      (length (opposite_of demo_order (book_of demo_state "AAPL")) < fuel)%nat →
      on_order_received fuel demo_state demo_order = Ok (ts, self').
Proof.
  apply (on_order_received_terminates demo_state demo_order).
  - exact demo_reachable.
  - solve_valid.
Defined.

(** ** Frame *)

Lemma on_order_received_books fuel self order ts self' :
  on_order_received fuel self order = Ok (ts, self') →
  ∃ b, order_books self' = <[symbol order := b]> (order_books self).
Proof.
  unfold on_order_received.
  destruct (get_book _ _) as [b| |]; [|done..]. cbn [mbind result_bind].
  destruct (while_loop _ _ _) as [st| |]; [|done..]. cbn [mbind result_bind].
  destruct (0 <? remaining_qty st); intros [= _ <-]; cbn [order_books];
    rewrite init_symbol_insert; by eexists.
Qed.

(** C8. A call for an order of symbol S leaves the entry of every other
    symbol as it was (same buy list, same sell list), and every symbol
    registered before the call is registered after it. *)
Theorem other_books_unchanged fuel self order ts self' sym :
  on_order_received fuel self order = Ok (ts, self') →
  (sym ≠ symbol order → order_books self' !! sym = order_books self !! sym)
  ∧ (is_Some (order_books self !! sym) → is_Some (order_books self' !! sym)).
Proof.
  intros Hr. destruct (on_order_received_books _ _ _ _ _ Hr) as [b ->].
  split.
  - intros Hne. by rewrite lookup_insert_ne.
  - intros Hs. destruct (decide (symbol order = sym)) as [<-|Hne].
    + rewrite lookup_insert_eq. by eexists.
    + by rewrite lookup_insert_ne.
Qed.

Lemma other_books_unchanged_witness :
  ("MSFT" ≠ symbol demo_order →
   order_books demo_state' !! "MSFT" = order_books demo_state !! "MSFT")
  ∧ (is_Some (order_books demo_state !! "MSFT") →
     is_Some (order_books demo_state' !! "MSFT")).
Proof.
  apply (other_books_unchanged 10 demo_state demo_order demo_trades).
  exact demo_call.
Defined.

(** ** Orders of quantity zero *)

Lemma book_eta (b : Book) : {| buy := buy b; sell := sell b |} = b.
Proof. by destruct b. Qed.

(** C10. A call for an order of quantity 0 returns no trade, in any state
    and for any iteration budget, and the state it leaves is the state
    [_init_symbol_if_needed] produces: the same state when the symbol is
    registered, and otherwise the same state with an empty book added under
    the symbol. *)
Theorem zero_quantity_order fuel self order :
  quantity order = 0 →
  on_order_received fuel self order
    = Ok ([], _init_symbol_if_needed self (symbol order))
  ∧ (is_Some (order_books self !! symbol order) →
     _init_symbol_if_needed self (symbol order) = self)
  ∧ (order_books self !! symbol order = None →
     _init_symbol_if_needed self (symbol order)
     = {| order_books :=
            <[symbol order := {| buy := []; sell := [] |}]>
              (order_books self);
          next_oid := next_oid self |}).
Proof.
  intros Hq. split; [|split].
  - unfold on_order_received.
    destruct (get_book _ _) as [b| |] eqn:Hb.
    + cbn [mbind result_bind]. rewrite while_loop_exit.
      2:{ unfold loop_cond. cbn. by rewrite Hq. }
      cbn. rewrite Hq. cbn. do 2 f_equal.
      destruct (is_buy order); rewrite book_eta;
      unfold get_book in Hb;
      (destruct (order_books _ !! _) as [b'|] eqn:Hl; [|done]);
      injection Hb as ->; rewrite insert_id by done;
      by destruct (_init_symbol_if_needed self (symbol order)).
    + destruct (get_book_init self (symbol order)) as (b & Hb' & _).
      congruence.
    + destruct (get_book_init self (symbol order)) as (b & Hb' & _).
      congruence.
  - intros [b Hb]. unfold _init_symbol_if_needed. by rewrite Hb.
  - intros Hb. unfold _init_symbol_if_needed. by rewrite Hb.
Qed.

Lemma zero_quantity_order_witness :
  on_order_received 3 demo_state (mkOrder "zed" "BUY" "TSLA" 100 0)
    = Ok ([], _init_symbol_if_needed demo_state "TSLA")
  ∧ (is_Some (order_books demo_state !! "TSLA") →
     _init_symbol_if_needed demo_state "TSLA" = demo_state)
  ∧ (order_books demo_state !! "TSLA" = None →
     _init_symbol_if_needed demo_state "TSLA"
     = {| order_books :=
            <["TSLA" := {| buy := []; sell := [] |}]>
              (order_books demo_state);
          next_oid := next_oid demo_state |}).
Proof.
  apply (zero_quantity_order 3 demo_state (mkOrder "zed" "BUY" "TSLA" 100 0)).
  reflexivity.
Defined.

(** ** Conservation of quantity *)

Lemma traded_app sym l1 l2 :
  traded sym (l1 ++ l2) = traded sym l1 + traded sym l2.
Proof. induction l1 as [|x l1 IH]; simpl; [done|]. rewrite IH. lia. Qed.

Lemma submitted_cons buying sym o orders :
  submitted buying sym (o :: orders)
  = submitted buying sym [o] + submitted buying sym orders.
Proof. simpl. lia. Qed.

Lemma traded_same sym ts :
  Forall (fun t => trade_symbol t = sym) ts → traded sym ts = sum_trades ts.
Proof.
  induction 1 as [|t ts Ht _ IH]; simpl; [done|].
  rewrite Ht, String.eqb_refl, IH. done.
Qed.

Lemma traded_other sym sym' ts :
  sym' ≠ sym →
  Forall (fun t => trade_symbol t = sym') ts → traded sym ts = 0.
Proof.
  intros Hne. induction 1 as [|t ts Ht _ IH]; simpl; [done|].
  rewrite Ht, IH. destruct (String.eqb_spec sym' sym); [done|lia].
Qed.

Lemma front_matching_symbol order l rem ts l' rem' :
  front_matching order l rem = (ts, l', rem') →
  Forall (fun t => trade_symbol t = symbol order) ts.
Proof.
  intros Hf. apply Forall_forall. intros t Ht.
  destruct (front_matching_trades _ _ _ _ _ _ _ Hf Ht) as (m & _ & _ & ->).
  done.
Qed.

Lemma front_matching_conserves order l rem ts l' rem' :
  front_matching order l rem = (ts, l', rem') →
  sum_qty l = sum_qty l' + sum_trades ts.
Proof.
  revert l rem ts l' rem'.
  apply (front_matching_cases order (fun l rem ts l' rem' =>
    sum_qty l = sum_qty l' + sum_trades ts)); simpl; intros; lia.
Qed.

Lemma sum_qty_place rev x l :
  sum_qty (place rev x l) = quantity (dict x) + sum_qty l.
Proof.
  induction l as [|y l IH]; cbn [place]; [done|].
  destruct (key_le rev y x); simpl; [|done].
  fold (sum_qty (place rev x l)). rewrite IH. fold (sum_qty l). lia.
Qed.

Lemma sum_qty_nonneg l :
  Forall (fun r => 0 < quantity (dict r)) l → 0 ≤ sum_qty l.
Proof. induction 1 as [|x l Hx _ IH]; simpl; [done|]. fold (sum_qty l). lia. Qed.

Lemma book_of_other fuel self order ts self' sym :
  on_order_received fuel self order = Ok (ts, self') →
  sym ≠ symbol order → book_of self' sym = book_of self sym.
Proof.
  intros Hr Hne. destruct (on_order_received_books _ _ _ _ _ Hr) as [b Hb].
  unfold book_of. rewrite Hb. by rewrite lookup_insert_ne.
Qed.

(** One call: what rests afterwards plus what was traded is what rested
    before plus what the order brought. *)
Lemma on_order_received_conserves fuel self order ts self' buying sym :
  consistent self → 0 ≤ quantity order →
  on_order_received fuel self order = Ok (ts, self') →
  resting buying self' sym + traded sym ts
  = resting buying self sym + submitted buying sym [order].
Proof.
  intros Hc Hq Hr. unfold resting, submitted. cbn [foldr].
  destruct (String.eqb_spec (symbol order) sym) as [<-|Hne].
  - destruct (on_order_received_front _ _ _ _ _ Hc Hr)
      as (l' & rem' & Hf & Hopp & Hsame & _).
    rewrite (traded_same _ _ (front_matching_symbol _ _ _ _ _ _ Hf)).
    pose proof (front_matching_conserves _ _ _ _ _ _ Hf) as Hsum.
    destruct (front_matching_remaining _ _ _ _ _ _ Hf) as [Hrem Hpos].
    specialize (Hpos Hq).
    assert (sum_qty (same_of order (book_of self' (symbol order)))
            = sum_qty (same_of order (book_of self (symbol order))) + rem')
      as Hs.
    { rewrite Hsame. destruct (Z.ltb_spec 0 rem').
      - rewrite sum_qty_place. simpl. lia.
      - lia. }
    rewrite <- Hopp in Hsum. unfold opposite_of, same_of in *.
    destruct (is_buy order), buying; simpl; lia.
  - rewrite (book_of_other _ _ _ _ _ _ Hr) by done.
    destruct (on_order_received_front _ _ _ _ _ Hc Hr)
      as (l' & rem' & Hf & _).
    rewrite (traded_other sym (symbol order)); [simpl; lia|done|].
    by apply (front_matching_symbol _ _ _ _ _ _ Hf).
Qed.

Lemma run_conserves fuel self orders ts self' buying sym :
  consistent self → Forall valid orders →
  run fuel self orders = Ok (ts, self') →
  resting buying self' sym + traded sym ts
  = resting buying self sym + submitted buying sym orders.
Proof.
  revert self ts. induction orders as [|order rest IH]; intros self ts Hc Hv.
  - simpl. intros [= <- <-]. simpl. lia.
  - cbn [run]. apply Forall_cons in Hv as [Hv1 Hv].
    destruct (on_order_received fuel self order) as [[ts1 self1]| |] eqn:H1;
      [|done..].
    cbn [mbind result_bind].
    destruct (run fuel self1 rest) as [[ts2 self2]| |] eqn:H2; [|done..].
    cbn [mbind result_bind]. intros [= <- <-].
    rewrite traded_app, submitted_cons.
    assert (0 ≤ quantity order) as Hq by (destruct Hv1; lia).
    pose proof (on_order_received_conserves fuel self order ts1 self1
                  buying sym Hc Hq H1) as Hstep.
    pose proof (on_order_received_consistent fuel self order ts1 self1
                  Hc H1) as Hc1.
    pose proof (IH self1 ts2 Hc1 Hv H2) as Hrest.
    lia.
Qed.

(** C3. After any sequence of valid orders processed from the empty
    registry, for each symbol and each side: the quantity traded in the
    symbol is at most the quantity submitted on that side, and the quantity
    resting on that side plus the quantity traded equals the quantity
    submitted on that side. Each trade counts against both sides, since it
    matches a buy order with a sell order. *)
Theorem conservation fuel orders ts self' sym buying :
  Forall valid orders →
  run fuel init orders = Ok (ts, self') →
  traded sym ts ≤ submitted buying sym orders
  ∧ resting buying self' sym + traded sym ts = submitted buying sym orders.
Proof.
  intros Hv Hrun.
  pose proof (run_conserves fuel init orders ts self' buying sym
                init_consistent Hv Hrun) as Heq.
  assert (resting buying init sym = 0) as Hz.
  { unfold resting, book_of, init. simpl. rewrite lookup_empty.
    by destruct buying. }
  rewrite Hz in Heq. split; [|lia].
  assert (0 ≤ resting buying self' sym); [|lia].
  pose proof (run_reachable fuel init orders ts self' reachable_init Hrun)
    as Hreach.
  apply reachable_consistent in Hreach.
  destruct (consistent_book self' sym Hreach)
    as ((_ & _ & Hb & _) & (_ & _ & Hs & _) & _).
  unfold resting, book_of. destruct buying; by apply sum_qty_nonneg.
Qed.

Lemma conservation_witness :
  traded "AAPL" demo_trades
    ≤ submitted false "AAPL" (demo_orders ++ [demo_order])
  ∧ resting false demo_state' "AAPL" + traded "AAPL" demo_trades
    = submitted false "AAPL" (demo_orders ++ [demo_order]).
Proof.
  apply (conservation 10 (demo_orders ++ [demo_order]) demo_trades
           demo_state' "AAPL" false).
  - unfold demo_orders, demo_order. cbn [app].
    repeat (apply Forall_cons; split; [solve_valid|]). constructor.
  - vm_compute. reflexivity.
Defined.

(** ** Time priority *)

Lemma before_irrefl_price rev a b :
  price (dict a) = price (dict b) → (oid a < oid b)%nat → ¬ before rev b a.
Proof. unfold before. destruct rev; intros E Ho [H|[_ H]]; lia. Qed.

Lemma oid_with_quantity q h t :
  map oid (with_quantity q h :: t) = map oid (h :: t).
Proof. done. Qed.

(** C5. In a reachable state, let [a] and [b] rest on the list the incoming
    order is matched against, at the same price, [a] having arrived first.
    If the call touches [b] at all (it is removed, or its quantity changes),
    then [a] has been filled in full by a trade of the call and no longer
    rests in the book. *)
Theorem time_priority fuel self order ts self' a b :
  reachable self →
  on_order_received fuel self order = Ok (ts, self') →
  a ∈ opposite_of order (book_of self (symbol order)) →
  b ∈ opposite_of order (book_of self (symbol order)) →
  price (dict a) = price (dict b) →
  (oid a < oid b)%nat →
  b ∉ opposite_of order (book_of self' (symbol order)) →
  (oid a ∉ map oid (opposite_of order (book_of self' (symbol order))))
  ∧ ∃ ts1 ts2,
      ts = ts1 ++ make_trade order a (quantity (dict a)) :: ts2.
Proof.
  intros Hr Hcall Ha Hb Hprice Hoid Hb'.
  apply reachable_consistent in Hr.
  destruct (on_order_received_front _ _ _ _ _ Hr Hcall)
    as (l' & rem' & Hf & Hopp & _).
  rewrite Hopp in *.
  assert (side_ok (negb (is_buy order)) (next_oid self)
            (opposite_of order (book_of self (symbol order))))
    as (Hpt & Hnd & _).
  { destruct (consistent_book self (symbol order) Hr) as (H1 & H2 & _).
    unfold opposite_of, book_of. by destruct (is_buy order). }
  destruct (front_matching_shape _ _ _ _ _ _ Hf)
    as (consumed & rest & Hl & _ & Hcase).
  rewrite Hl in Ha, Hb, Hpt, Hnd.
  pose proof (before_irrefl_price (negb (is_buy order)) a b Hprice Hoid)
    as Hnot.
  assert (a ∈ consumed ∧ map oid l' = map oid rest
          ∧ ∃ tail, ts = full_trades order consumed ++ tail)
    as (Hac & Hoids & tail & Hts).
  { apply elem_of_app in Ha as [Ha|Ha], Hb as [Hb|Hb].
    - split; [done|].
      destruct Hcase as [(-> & -> & _)|(h & t & -> & _ & _ & -> & -> & _)].
      + split; [done|]. exists []. by rewrite app_nil_r.
      + split; [done|]. by eexists.
    - split; [done|].
      destruct Hcase as [(-> & -> & _)|(h & t & -> & _ & _ & -> & -> & _)].
      + split; [done|]. exists []. by rewrite app_nil_r.
      + split; [done|]. by eexists.
    - exfalso. apply Hnot.
      by apply (StronglySorted_app_1_elem_of _ consumed rest).
    - exfalso.
      destruct Hcase as [(_ & -> & _)|(h & t & -> & _ & _ & _ & -> & _)];
        [done|].
      apply StronglySorted_app_1_r in Hpt.
      apply StronglySorted_inv in Hpt as [_ Hh].
      rewrite Forall_forall in Hh.
      apply elem_of_cons in Hb as [->|Hb].
      + apply elem_of_cons in Ha as [->|Ha]; [lia|]. by apply Hnot, Hh.
      + apply Hb'. by right. }
  split.
  - rewrite Hoids. rewrite fmap_app in Hnd.
    apply NoDup_app in Hnd as (_ & Hdis & _).
    apply Hdis. by apply list_elem_of_fmap_2.
  - apply list_elem_of_split in Hac as (c1 & c2 & ->).
    exists (full_trades order c1), (full_trades order c2 ++ tail).
    rewrite Hts. unfold full_trades. rewrite map_app. cbn [map].
    by rewrite <- app_assoc.
Qed.

Lemma time_priority_witness :
  (0%nat ∉ map oid (opposite_of demo_order (book_of demo_state' "AAPL")))
  ∧ ∃ ts1 ts2,
      demo_trades
      = ts1 ++ make_trade demo_order
                 (mkResting 0 (mkOrder "ann" "SELL" "AAPL" 100 5)) 5 :: ts2.
Proof.
  apply (time_priority 10 demo_state demo_order demo_trades demo_state'
           (mkResting 0 (mkOrder "ann" "SELL" "AAPL" 100 5))
           (mkResting 1 (mkOrder "bob" "SELL" "AAPL" 100 5))).
  - exact demo_reachable.
  - exact demo_call.
  - vm_compute. left.
  - vm_compute. right. left.
  - reflexivity.
  - simpl. lia.
  - vm_compute. intros H. apply list_elem_of_singleton in H. discriminate H.
Defined.

(** ** The residual order *)

Lemma on_order_received_loop fuel self order ts self' :
  on_order_received fuel self order = Ok (ts, self') →
  ∃ st, while_loop fuel order (loop_start order (book_of self (symbol order)))
          = Ok st
        ∧ trades st = ts.
Proof.
  unfold on_order_received, loop_start, opposite_of, book_of.
  destruct (get_book_init self (symbol order)) as (b & -> & <-).
  cbn [mbind result_bind].
  destruct (while_loop _ _ _) as [st| |]; [|done..]. cbn [mbind result_bind].
  destruct (0 <? remaining_qty st); intros [= <- _]; by exists st.
Qed.

(** C6. For a valid order in a reachable state, let [r] be the remaining
    quantity when the matching loop ends; it is the order's quantity minus
    the quantities traded, and it is not negative. If [r = 0] the list of
    the order's own side is unchanged and no object is allocated. If
    [r > 0] the list of the order's own side is the old list with one entry
    added, the fresh object that carries the order's username, side, symbol
    and price with quantity [r]. In both cases every entry of the opposite
    list after the call is an object that existed before the call. *)
Theorem residual_insertion fuel self order ts self' :
  reachable self →
  valid order →
  on_order_received fuel self order = Ok (ts, self') →
  ∃ st,
    while_loop fuel order (loop_start order (book_of self (symbol order)))
      = Ok st
    ∧ remaining_qty st = quantity order - sum_trades ts
    ∧ 0 ≤ remaining_qty st
    ∧ (remaining_qty st = 0 →
       same_of order (book_of self' (symbol order))
         = same_of order (book_of self (symbol order))
       ∧ next_oid self' = next_oid self)
    ∧ (0 < remaining_qty st →
       next_oid self' = S (next_oid self)
       ∧ ∃ l1 l2,
           same_of order (book_of self (symbol order)) = l1 ++ l2
           ∧ same_of order (book_of self' (symbol order))
             = l1 ++ {| oid := next_oid self;
                        dict := {| username := username order;
                                   side := side order;
                                   symbol := symbol order;
                                   price := price order;
                                   quantity := remaining_qty st |} |} :: l2)
    ∧ (∀ y, y ∈ opposite_of order (book_of self' (symbol order)) →
            (oid y < next_oid self)%nat).
Proof.
  intros Hr (Hq & _) Hcall. apply reachable_consistent in Hr.
  destruct (on_order_received_loop _ _ _ _ _ Hcall) as (st & Hw & Hts).
  exists st. split; [done|].
  destruct (on_order_received_front _ _ _ _ _ Hr Hcall)
    as (l' & rem' & Hf & Hopp & Hsame & Hnext).
  assert (side_ok (negb (is_buy order)) (next_oid self)
            (opposite_of order (book_of self (symbol order)))) as Hok.
  { destruct (consistent_book self (symbol order) Hr) as (H1 & H2 & _).
    unfold opposite_of, book_of. by destruct (is_buy order). }
  unfold loop_start in Hw. apply while_loop_front in Hw.
  2:{ apply price_time_sorted, Hok. }
  2:{ apply Hok. }
  rewrite Hf in Hw. cbn in Hw. injection Hw as _ _ Hrem.
  destruct (front_matching_remaining _ _ _ _ _ _ Hf) as [Heq Hpos].
  rewrite Hrem. repeat split.
  - lia.
  - lia.
  - rewrite Hsame. destruct (Z.ltb_spec 0 rem'); [lia|done].
  - rewrite Hnext. destruct (Z.ltb_spec 0 rem'); [lia|done].
  - rewrite Hnext. destruct (Z.ltb_spec 0 rem'); [done|lia].
  - rewrite Hsame. destruct (Z.ltb_spec 0 rem'); [|lia].
    destruct (place_split (is_buy order)
                {| oid := next_oid self; dict := new_order order rem' |}
                (same_of order (book_of self (symbol order))))
      as (l1 & l2 & E1 & E2 & _).
    exists l1, l2. by split.
  - intros y Hy. rewrite Hopp in Hy.
    destruct (front_matching_members _ _ _ _ _ _ _ Hf Hy)
      as (x & Hx & -> & _).
    destruct Hok as (_ & _ & _ & Hb). rewrite Forall_forall in Hb.
    by apply Hb.
Qed.

Lemma residual_insertion_witness :
  ∃ st,
    while_loop 10 (mkOrder "fay" "BUY" "AAPL" 100 12)
      (loop_start (mkOrder "fay" "BUY" "AAPL" 100 12)
                  (book_of demo_state "AAPL")) = Ok st
    ∧ remaining_qty st = 12 - sum_trades
        [mkTrade "AAPL" "fay" "ann" 100 5; mkTrade "AAPL" "fay" "bob" 100 5]
    ∧ 0 ≤ remaining_qty st
    ∧ (remaining_qty st = 0 →
       same_of (mkOrder "fay" "BUY" "AAPL" 100 12)
         (book_of (state_after 10
                     (demo_orders ++ [mkOrder "fay" "BUY" "AAPL" 100 12]))
                  "AAPL")
         = same_of (mkOrder "fay" "BUY" "AAPL" 100 12)
                   (book_of demo_state "AAPL")
       ∧ next_oid (state_after 10
                     (demo_orders ++ [mkOrder "fay" "BUY" "AAPL" 100 12]))
         = next_oid demo_state)
    ∧ (0 < remaining_qty st →
       next_oid (state_after 10
                   (demo_orders ++ [mkOrder "fay" "BUY" "AAPL" 100 12]))
         = S (next_oid demo_state)
       ∧ ∃ l1 l2,
           same_of (mkOrder "fay" "BUY" "AAPL" 100 12)
                   (book_of demo_state "AAPL") = l1 ++ l2
           ∧ same_of (mkOrder "fay" "BUY" "AAPL" 100 12)
               (book_of (state_after 10
                           (demo_orders
                              ++ [mkOrder "fay" "BUY" "AAPL" 100 12]))
                        "AAPL")
             = l1 ++ {| oid := next_oid demo_state;
                        dict := {| username := "fay"; side := "BUY";
                                   symbol := "AAPL"; price := 100;
                                   quantity := remaining_qty st |} |} :: l2)
    ∧ (∀ y, y ∈ opposite_of (mkOrder "fay" "BUY" "AAPL" 100 12)
                  (book_of (state_after 10
                              (demo_orders
                                 ++ [mkOrder "fay" "BUY" "AAPL" 100 12]))
                           "AAPL") →
            (oid y < next_oid demo_state)%nat).
Proof.
  apply (residual_insertion 10 demo_state
           (mkOrder "fay" "BUY" "AAPL" 100 12)
           [mkTrade "AAPL" "fay" "ann" 100 5;
            mkTrade "AAPL" "fay" "bob" 100 5]
           (state_after 10
              (demo_orders ++ [mkOrder "fay" "BUY" "AAPL" 100 12]))).
  - exact demo_reachable.
  - solve_valid.
  - vm_compute. reflexivity.
Defined.

(** ** Orders whose side is not "BUY" *)

Lemma is_buy_false order : side order ≠ "BUY" → is_buy order = false.
Proof. intros H. unfold is_buy. by apply String.eqb_neq. Qed.

Section SameButSide.
(** Two orders that differ at most in a [side] that is not ["BUY"]. *)
Variables o o' : Order.
Hypothesis Hbuy : is_buy o = is_buy o'.
Hypothesis Hprice : price o = price o'.
Hypothesis Huser : username o = username o'.
Hypothesis Hsym : symbol o = symbol o'.

Lemma crosses_ext r : crosses o r = crosses o' r.
Proof. unfold crosses. by rewrite Hbuy, Hprice. Qed.

Lemma make_trade_ext r q : make_trade o r q = make_trade o' r q.
Proof. unfold make_trade. by rewrite Hbuy, Huser, Hsym. Qed.

Lemma front_matching_ext l rem :
  front_matching o l rem = front_matching o' l rem.
Proof.
  revert rem. induction l as [|best rest IH]; intros rem; [done|].
  cbn [front_matching]. rewrite crosses_ext, !make_trade_ext.
  by rewrite IH.
Qed.

Lemma loop_body_ext st : loop_body o st = loop_body o' st.
Proof. unfold loop_body. by rewrite Hbuy, Hprice, Huser, Hsym. Qed.

Lemma while_loop_ext fuel st : while_loop fuel o st = while_loop fuel o' st.
Proof.
  revert st. induction fuel as [|fuel IH]; intros st; [done|].
  cbn [while_loop]. rewrite loop_body_ext.
  destruct (loop_cond st); [|done].
  destruct (loop_body o' st) as [st1| |]; [|done..]. apply IH.
Qed.
End SameButSide.

Lemma key_le_relabel n rev a b :
  key_le rev (relabel n a) (relabel n b) = key_le rev a b.
Proof.
  unfold relabel, key_le.
  destruct (oid a =? n)%nat, (oid b =? n)%nat; done.
Qed.

Lemma place_relabel n rev x l :
  place rev (relabel n x) (map (relabel n) l)
  = map (relabel n) (place rev x l).
Proof.
  induction l as [|y l IH]; cbn [place map]; [done|].
  rewrite key_le_relabel. destruct (key_le rev y x); cbn [map]; [|done].
  by rewrite IH.
Qed.

Lemma relabel_old n l :
  Forall (fun r => (oid r < n)%nat) l → map (relabel n) l = l.
Proof.
  induction 1 as [|x l Hx _ IH]; cbn [map]; [done|]. rewrite IH.
  unfold relabel. destruct (Nat.eqb_spec (oid x) n); [lia|done].
Qed.

Lemma on_order_received_of_loop fuel self order st :
  while_loop fuel order (loop_start order (book_of self (symbol order)))
    = Ok st →
  ∃ self', on_order_received fuel self order = Ok (trades st, self').
Proof.
  unfold on_order_received, loop_start, opposite_of, book_of.
  destruct (get_book_init self (symbol order)) as (b & -> & <-).
  cbn [mbind result_bind]. intros ->. cbn [mbind result_bind].
  destruct (0 <? remaining_qty st); by eexists.
Qed.

(** C9. In a reachable state, an order whose side is any string other than
    "BUY" is processed as the same order with side "SELL" is: the same
    trades, the same registry keys and buy lists, and the same sell lists
    except that the residual entry keeps the side string it came with.
    Every trade names the order's user as seller and is made against an
    entry of the buy list whose price is at least the order's price; no
    entry is added to the buy list; a residual, when there is one, rests on
    the sell list. *)
Theorem non_buy_treated_as_sell fuel self order ts self' :
  reachable self →
  side order ≠ "BUY" →
  on_order_received fuel self order = Ok (ts, self') →
  (∃ self_s,
      on_order_received fuel self (as_sell order) = Ok (ts, self_s)
      ∧ next_oid self_s = next_oid self'
      ∧ ∀ sym,
          (is_Some (order_books self_s !! sym)
           ↔ is_Some (order_books self' !! sym))
          ∧ buy (book_of self_s sym) = buy (book_of self' sym)
          ∧ sell (book_of self_s sym)
            = map (relabel (next_oid self)) (sell (book_of self' sym)))
  ∧ (∀ t, t ∈ ts →
       seller t = username order
       ∧ ∃ maker,
           maker ∈ buy (book_of self (symbol order))
           ∧ price order ≤ price (dict maker)
           ∧ buyer t = username (dict maker)
           ∧ trade_price t = price (dict maker))
  ∧ (∀ y, y ∈ buy (book_of self' (symbol order)) →
          (oid y < next_oid self)%nat)
  ∧ (0 < quantity order - sum_trades ts →
     {| oid := next_oid self;
        dict := new_order order (quantity order - sum_trades ts) |}
     ∈ sell (book_of self' (symbol order))).
Proof.
  intros Hr Hside Hcall. apply reachable_consistent in Hr.
  pose proof (is_buy_false order Hside) as Hb.
  assert (is_buy order = is_buy (as_sell order)) as Hbb by (by rewrite Hb).
  destruct (on_order_received_front _ _ _ _ _ Hr Hcall)
    as (l' & rem' & Hf & Hopp & Hsame & Hnext).
  unfold opposite_of, same_of in Hf, Hopp, Hsame. rewrite Hb in Hf, Hopp, Hsame.
  destruct (consistent_book self (symbol order) Hr)
    as ((_ & _ & _ & Hbuyoid) & (_ & _ & _ & Hselloid) & _).
  fold (book_of self (symbol order)) in Hbuyoid, Hselloid.
  split; [|split; [|split]].
  - destruct (on_order_received_loop _ _ _ _ _ Hcall) as (st & Hw & Hts).
    rewrite (while_loop_ext order (as_sell order) Hbb eq_refl eq_refl eq_refl)
      in Hw.
    assert (loop_start order (book_of self (symbol order))
            = loop_start (as_sell order)
                (book_of self (symbol (as_sell order)))) as Hstart.
    { unfold loop_start, opposite_of. by rewrite <- Hbb. }
    rewrite Hstart in Hw.
    destruct (on_order_received_of_loop _ _ _ _ Hw) as (self_s & Hcall_s).
    rewrite Hts in Hcall_s. exists self_s. split; [done|].
    destruct (on_order_received_front _ _ _ _ _ Hr Hcall_s)
      as (l_s & rem_s & Hf_s & Hopp_s & Hsame_s & Hnext_s).
    unfold opposite_of, same_of in Hf_s, Hopp_s, Hsame_s.
    cbn in Hf_s, Hopp_s, Hsame_s.
    rewrite <- (front_matching_ext order (as_sell order) Hbb eq_refl eq_refl
                  eq_refl) in Hf_s.
    rewrite Hf in Hf_s. injection Hf_s as <- <-.
    split; [by rewrite Hnext, Hnext_s|].
    intros sym. destruct (decide (sym = symbol order)) as [->|Hne].
    + split; [|split].
      * destruct (on_order_received_books _ _ _ _ _ Hcall) as [b1 ->].
        destruct (on_order_received_books _ _ _ _ _ Hcall_s) as [b2 ->].
        cbn. rewrite !lookup_insert_eq. split; by eexists.
      * by rewrite Hopp, Hopp_s.
      * rewrite Hsame, Hsame_s. destruct (0 <? rem').
        -- rewrite <- place_relabel.
           rewrite (relabel_old _ _ Hselloid).
           unfold relabel. cbn. by rewrite Nat.eqb_refl.
        -- by rewrite (relabel_old _ _ Hselloid).
    + rewrite (book_of_other _ _ _ _ _ sym Hcall) by done.
      rewrite (book_of_other _ _ _ _ _ sym Hcall_s) by done.
      split; [|split; [done|]].
      * destruct (on_order_received_books _ _ _ _ _ Hcall) as [b1 ->].
        destruct (on_order_received_books _ _ _ _ _ Hcall_s) as [b2 ->].
        cbn. by rewrite !lookup_insert_ne.
      * destruct (consistent_book self sym Hr) as (_ & (_ & _ & _ & Ho) & _).
        symmetry. apply relabel_old. exact Ho.
  - intros t Ht.
    destruct (front_matching_trades _ _ _ _ _ _ _ Hf Ht)
      as (maker & Hin & Hc & ->).
    unfold make_trade. rewrite Hb. cbn. split; [done|].
    exists maker. repeat split; [done|].
    unfold crosses, match_condition in Hc. rewrite Hb in Hc.
    rewrite Z.geb_leb in Hc. by apply Z.leb_le.
  - intros y Hy. rewrite Hopp in Hy.
    destruct (front_matching_members _ _ _ _ _ _ _ Hf Hy)
      as (x & Hx & -> & _).
    rewrite Forall_forall in Hbuyoid. by apply Hbuyoid.
  - intros Hpos.
    destruct (front_matching_remaining _ _ _ _ _ _ Hf) as [Heq _].
    replace (quantity order - sum_trades ts) with rem' in * by lia.
    rewrite Hsame. destruct (Z.ltb_spec 0 rem'); [|lia].
    rewrite place_perm. by left.
Qed.

Lemma non_buy_treated_as_sell_witness :
  (∃ self_s,
      on_order_received 10 demo_state (as_sell odd_order)
        = Ok (odd_trades, self_s)
      ∧ next_oid self_s = next_oid odd_state'
      ∧ ∀ sym,
          (is_Some (order_books self_s !! sym)
           ↔ is_Some (order_books odd_state' !! sym))
          ∧ buy (book_of self_s sym) = buy (book_of odd_state' sym)
          ∧ sell (book_of self_s sym)
            = map (relabel (next_oid demo_state))
                  (sell (book_of odd_state' sym)))
  ∧ (∀ t, t ∈ odd_trades →
       seller t = username odd_order
       ∧ ∃ maker,
           maker ∈ buy (book_of demo_state (symbol odd_order))
           ∧ price odd_order ≤ price (dict maker)
           ∧ buyer t = username (dict maker)
           ∧ trade_price t = price (dict maker))
  ∧ (∀ y, y ∈ buy (book_of odd_state' (symbol odd_order)) →
          (oid y < next_oid demo_state)%nat)
  ∧ (0 < quantity odd_order - sum_trades odd_trades →
     {| oid := next_oid demo_state;
        dict := new_order odd_order
                  (quantity odd_order - sum_trades odd_trades) |}
     ∈ sell (book_of odd_state' (symbol odd_order))).
Proof.
  apply (non_buy_treated_as_sell 10 demo_state odd_order odd_trades
           odd_state').
  - exact demo_reachable.
  - discriminate.
  - vm_compute. reflexivity.
Defined.

Example odd_order_rests_on_sell_side :
  view (sell (book_of odd_state' "AAPL"))
    = [("gus", 99, 2); ("ann", 100, 5); ("bob", 100, 5)]
  ∧ map (fun r => side (dict r)) (sell (book_of odd_state' "AAPL"))
    = ["HOLD"; "SELL"; "SELL"]
  ∧ buy (book_of odd_state' "AAPL") = [].
Proof. repeat split; vm_compute; reflexivity. Qed.

(** * Part III: further properties of the engine *)

(** ** One call, in any state *)

Lemma on_order_received_inv fuel self order ts self' :
  on_order_received fuel self order = Ok (ts, self') →
  ∃ st,
    while_loop fuel order (loop_start order (book_of self (symbol order)))
      = Ok st
    ∧ trades st = ts
    ∧ opposite_of order (book_of self' (symbol order)) = opposite_list st
    ∧ same_of order (book_of self' (symbol order))
      = (if 0 <? remaining_qty st then
           sorted (is_buy order)
             (same_of order (book_of self (symbol order))
                ++ [ {| oid := next_oid self;
                        dict := new_order order (remaining_qty st) |} ])
         else same_of order (book_of self (symbol order)))
    ∧ next_oid self'
      = (if 0 <? remaining_qty st then S (next_oid self)
         else next_oid self).
Proof.
  unfold on_order_received, loop_start, opposite_of, same_of, book_of.
  destruct (get_book_init self (symbol order)) as (b & -> & <-).
  cbn [mbind result_bind].
  destruct (while_loop _ _ _) as [st| |]; [|done..]. cbn [mbind result_bind].
  rewrite init_symbol_next.
  destruct (0 <? remaining_qty st) eqn:E; rewrite init_symbol_insert;
    intros [= <- <-]; exists st; rewrite E; cbn [order_books next_oid];
    rewrite lookup_insert_eq; cbn [default];
    destruct (is_buy order); done.
Qed.

(** ** Quantities of trades and of resting orders *)

Lemma front_matching_quantities order l rem ts l' rem' t :
  front_matching order l rem = (ts, l', rem') →
  Forall (fun r => 0 < quantity (dict r)) l →
  t ∈ ts →
  0 < rem
  ∧ ∃ maker, maker ∈ l ∧ t = make_trade order maker (trade_qty t)
             ∧ 0 < trade_qty t ≤ quantity (dict maker).
Proof.
  revert l rem ts l' rem'.
  apply (front_matching_cases order (fun l rem ts l' rem' =>
    Forall (fun r => 0 < quantity (dict r)) l →
    t ∈ ts →
    0 < rem
    ∧ ∃ maker, maker ∈ l ∧ t = make_trade order maker (trade_qty t)
               ∧ 0 < trade_qty t ≤ quantity (dict maker))).
  - intros rem _ Ht. by apply elem_of_nil in Ht.
  - intros best rest rem _ _ Ht. by apply elem_of_nil in Ht.
  - intros best rest rem ts l' rem' Hrem Hcr Hle _ IH Hpos Ht.
    apply Forall_cons in Hpos as [Hb Hpos]. split; [done|].
    apply elem_of_cons in Ht as [->|Ht].
    + exists best. simpl. repeat split; [by left|lia..].
    + destruct (IH Hpos Ht) as (_ & maker & Hin & Heq & Hq).
      exists maker. repeat split; [by right|done|lia..].
  - intros best rest rem Hrem Hcr Hlt Hpos Ht.
    apply list_elem_of_singleton in Ht as ->. split; [done|].
    exists best. simpl. repeat split; [by left|lia..].
Qed.

(** X1. In a reachable state, every trade of a call has a positive
    quantity, at most the quantity its resting counterpart had when the
    call started, and the quantities of all the trades of the call add up
    to at most the quantity of the incoming order. *)
Theorem trade_quantity_bounds fuel self order ts self' t :
  reachable self →
  on_order_received fuel self order = Ok (ts, self') →
  t ∈ ts →
  (∃ maker,
      maker ∈ opposite_of order (book_of self (symbol order))
      ∧ t = make_trade order maker (trade_qty t)
      ∧ 0 < trade_qty t ≤ quantity (dict maker))
  ∧ sum_trades ts ≤ quantity order.
Proof.
  intros Hr Hcall Ht. apply reachable_consistent in Hr.
  destruct (on_order_received_front _ _ _ _ _ Hr Hcall)
    as (l' & rem' & Hf & _).
  assert (Forall (fun r => 0 < quantity (dict r))
            (opposite_of order (book_of self (symbol order)))) as Hpos.
  { destruct (consistent_book self (symbol order) Hr)
      as ((_ & _ & H1 & _) & (_ & _ & H2 & _) & _).
    unfold opposite_of, book_of. by destruct (is_buy order). }
  destruct (front_matching_quantities _ _ _ _ _ _ _ Hf Hpos Ht)
    as (Hq & maker & Hin & Heq & Hb).
  split; [by exists maker|].
  destruct (front_matching_remaining _ _ _ _ _ _ Hf) as [Hsum Hnn]. lia.
Qed.

Lemma trade_quantity_bounds_witness :
  (∃ maker,
      maker ∈ opposite_of demo_order (book_of demo_state (symbol demo_order))
      ∧ mkTrade "AAPL" "eve" "bob" 100 2 = make_trade demo_order maker 2
      ∧ 0 < 2 ≤ quantity (dict maker))
  ∧ sum_trades demo_trades ≤ quantity demo_order.
Proof.
  apply (trade_quantity_bounds 10 demo_state demo_order demo_trades
           demo_state' (mkTrade "AAPL" "eve" "bob" 100 2)).
  - exact demo_reachable.
  - exact demo_call.
  - vm_compute. right. left.
Defined.

(** X2. In every reachable state, whatever orders were processed (also
    orders with a quantity of zero or below), every resting order has a
    positive quantity: an entry used up is removed, never kept at zero. *)
Theorem resting_quantity_positive self sym b r :
  reachable self →
  order_books self !! sym = Some b →
  r ∈ buy b ++ sell b →
  0 < quantity (dict r).
Proof.
  intros Hr Hb Hin. apply reachable_consistent in Hr.
  destruct (Hr sym b Hb) as ((_ & _ & H1 & _) & (_ & _ & H2 & _) & _).
  rewrite Forall_forall in H1, H2.
  apply elem_of_app in Hin as [Hin|Hin]; auto.
Qed.

Lemma resting_quantity_positive_witness :
  0 < quantity (dict (mkResting 1 (mkOrder "bob" "SELL" "AAPL" 100 3))).
Proof.
  apply (resting_quantity_positive demo_state' "AAPL"
           (book_of demo_state' "AAPL")).
  - apply (reachable_step 10 demo_state demo_order demo_trades).
    + exact demo_reachable.
    + exact demo_call.
  - vm_compute. reflexivity.
  - vm_compute. right. left.
Defined.

(** ** Price priority *)

Lemma key_le_no_worse order a b :
  key_le (negb (is_buy order)) a b = true →
  if is_buy order then price (dict a) ≤ price (dict b)
  else price (dict b) ≤ price (dict a).
Proof.
  unfold key_le. destruct (is_buy order); simpl; intros H;
    by apply Z.leb_le in H.
Qed.

Lemma front_matching_price_order order l rem ts l' rem' :
  front_matching order l rem = (ts, l', rem') →
  price_sorted (negb (is_buy order)) l →
  StronglySorted
    (fun t1 t2 => if is_buy order then trade_price t1 ≤ trade_price t2
                  else trade_price t2 ≤ trade_price t1) ts
  ∧ (∀ t y, t ∈ ts → y ∈ l' →
       if is_buy order then trade_price t ≤ price (dict y)
       else price (dict y) ≤ trade_price t).
Proof.
  revert l rem ts l' rem'.
  apply (front_matching_cases order (fun l rem ts l' rem' =>
    price_sorted (negb (is_buy order)) l →
    StronglySorted
      (fun t1 t2 => if is_buy order then trade_price t1 ≤ trade_price t2
                    else trade_price t2 ≤ trade_price t1) ts
    ∧ (∀ t y, t ∈ ts → y ∈ l' →
         if is_buy order then trade_price t ≤ price (dict y)
         else price (dict y) ≤ trade_price t))).
  - intros rem _. split; [constructor|].
    intros t y Ht. by apply elem_of_nil in Ht.
  - intros best rest rem _ _. split; [constructor|].
    intros t y Ht. by apply elem_of_nil in Ht.
  - intros best rest rem ts l' rem' _ _ _ Hf IH Hs.
    apply StronglySorted_inv in Hs as [Hs Hbest].
    rewrite Forall_forall in Hbest.
    destruct (IH Hs) as [IH1 IH2]. split.
    + constructor; [done|]. apply Forall_forall. intros t Ht.
      destruct (front_matching_trades _ _ _ _ _ _ _ Hf Ht)
        as (m & Hm & _ & ->).
      cbn [make_trade trade_price]. by apply key_le_no_worse, Hbest.
    + intros t y Ht Hy. apply elem_of_cons in Ht as [->|Ht]; [|by apply IH2].
      destruct (front_matching_members _ _ _ _ _ _ _ Hf Hy)
        as (x & Hx & _ & -> & _).
      cbn [make_trade trade_price]. by apply key_le_no_worse, Hbest.
  - intros best rest rem _ _ _ Hs.
    apply StronglySorted_inv in Hs as [Hs Hbest].
    rewrite Forall_forall in Hbest. split; [repeat constructor|].
    intros t y Ht Hy. apply list_elem_of_singleton in Ht as ->.
    cbn [make_trade trade_price].
    apply elem_of_cons in Hy as [->|Hy].
    + simpl. destruct (is_buy order); lia.
    + by apply key_le_no_worse, Hbest.
Qed.

(** X3. In a reachable state, the trades of a call come in order of price,
    best for the incoming order first (ascending for a buy, descending
    otherwise), and no entry left on the opposite list has a better price
    than any of the trades. *)
Theorem price_priority fuel self order ts self' :
  reachable self →
  on_order_received fuel self order = Ok (ts, self') →
  StronglySorted
    (fun t1 t2 => if is_buy order then trade_price t1 ≤ trade_price t2
                  else trade_price t2 ≤ trade_price t1) ts
  ∧ (∀ t y, t ∈ ts →
       y ∈ opposite_of order (book_of self' (symbol order)) →
       if is_buy order then trade_price t ≤ price (dict y)
       else price (dict y) ≤ trade_price t).
Proof.
  intros Hr Hcall. apply reachable_consistent in Hr.
  destruct (on_order_received_front _ _ _ _ _ Hr Hcall)
    as (l' & rem' & Hf & -> & _).
  apply (front_matching_price_order _ _ _ _ _ _ Hf).
  destruct (consistent_book self (symbol order) Hr)
    as ((H1 & _) & (H2 & _) & _).
  unfold opposite_of, book_of.
  destruct (is_buy order); by apply price_time_sorted.
Qed.

(** A seller at 98 joins the book of [demo_state], then a buyer takes 8 at
    up to 100. *)
Lemma price_priority_witness :
  StronglySorted
    (fun t1 t2 =>
       if is_buy (mkOrder "ivy" "BUY" "AAPL" 100 8)
       then trade_price t1 ≤ trade_price t2
       else trade_price t2 ≤ trade_price t1)
    [mkTrade "AAPL" "ivy" "hal" 98 2; mkTrade "AAPL" "ivy" "ann" 100 5;
     mkTrade "AAPL" "ivy" "bob" 100 1]
  ∧ (∀ t y,
       t ∈ [mkTrade "AAPL" "ivy" "hal" 98 2; mkTrade "AAPL" "ivy" "ann" 100 5;
            mkTrade "AAPL" "ivy" "bob" 100 1] →
       y ∈ opposite_of (mkOrder "ivy" "BUY" "AAPL" 100 8)
             (book_of
                (state_after 10
                   (demo_orders ++ [mkOrder "hal" "SELL" "AAPL" 98 6;
                                    mkOrder "ivy" "BUY" "AAPL" 100 8]))
                "AAPL") →
       if is_buy (mkOrder "ivy" "BUY" "AAPL" 100 8)
       then trade_price t ≤ price (dict y)
       else price (dict y) ≤ trade_price t).
Proof.
  apply (price_priority 10
           (state_after 10
              (demo_orders ++ [mkOrder "hal" "SELL" "AAPL" 98 6]))
           (mkOrder "ivy" "BUY" "AAPL" 100 8)).
  - eapply (run_reachable 10 init
              (demo_orders ++ [mkOrder "hal" "SELL" "AAPL" 98 6]));
      [apply reachable_init|].
    vm_compute. reflexivity.
  - vm_compute. reflexivity.
Defined.

(** ** Orders that trade nothing *)

(** X4. An order whose quantity is zero or negative is dropped, in any
    state and with any iteration budget: no trade, no entry in either list;
    the call only registers the symbol, as [_init_symbol_if_needed] does. *)
Theorem nonpositive_quantity_order fuel self order :
  quantity order ≤ 0 →
  on_order_received fuel self order
  = Ok ([], _init_symbol_if_needed self (symbol order)).
Proof.
  intros Hq. assert ((0 <? quantity order) = false) as Hz.
  { apply Z.ltb_ge. lia. }
  unfold on_order_received.
  destruct (get_book_init self (symbol order)) as (b & Hb & _).
  rewrite Hb. cbn [mbind result_bind]. rewrite while_loop_exit.
  2:{ unfold loop_cond. cbn. by rewrite Hz. }
  cbn. rewrite Hz. cbn. do 2 f_equal.
  unfold get_book in Hb.
  destruct (is_buy order); rewrite book_eta;
    (destruct (order_books _ !! _) as [b'|] eqn:Hl; [|done]);
    injection Hb as ->; rewrite insert_id by done;
    by destruct (_init_symbol_if_needed self (symbol order)).
Qed.

Lemma nonpositive_quantity_order_witness :
  on_order_received 0 demo_state (mkOrder "neg" "SELL" "AAPL" 90 (-5))
  = Ok ([], _init_symbol_if_needed demo_state "AAPL").
Proof.
  apply (nonpositive_quantity_order 0 demo_state
           (mkOrder "neg" "SELL" "AAPL" 90 (-5))).
  simpl. lia.
Defined.

Lemma front_matching_nil_iff order l rem :
  price_sorted (negb (is_buy order)) l →
  ((front_matching order l rem).1.1 = []
   ↔ rem ≤ 0 ∨ Forall (fun r => crosses order r = false) l)
  ∧ ((front_matching order l rem).1.1 = []
     → front_matching order l rem = ([], l, rem)).
Proof.
  intros Hs. destruct l as [|best rest]; cbn [front_matching].
  - split; [|done]. split; [|done]. intros _. right. constructor.
  - destruct (Z.ltb_spec 0 rem) as [Hrem|Hrem]; cbn [andb].
    + destruct (crosses order best) eqn:Hc.
      * destruct (quantity (dict best) <=? rem).
        -- destruct (front_matching order rest _) as [[ts1 l1] r1]. cbn.
           split; [|done]. split; [done|].
           intros [H|H]; [lia|]. apply Forall_cons in H as [H _]. congruence.
        -- cbn. split; [|done]. split; [done|].
           intros [H|H]; [lia|]. apply Forall_cons in H as [H _]. congruence.
      * cbn. split; [|done]. split; [|done]. intros _. right.
        by apply find_none_sorted.
    + cbn. split; [|done]. split; [|done]. intros _. by left.
Qed.

(** X5. In a reachable state a call produces no trade exactly when the
    order's quantity is not positive or no entry of the opposite list
    crosses its price. In that case the opposite list is left as it was, and
    an order of positive quantity rests in full on its own side. *)
Theorem no_trade_iff fuel self order ts self' :
  reachable self →
  on_order_received fuel self order = Ok (ts, self') →
  (ts = []
   ↔ quantity order ≤ 0
     ∨ Forall (fun r => crosses order r = false)
              (opposite_of order (book_of self (symbol order))))
  ∧ (ts = [] →
     opposite_of order (book_of self' (symbol order))
       = opposite_of order (book_of self (symbol order))
     ∧ (0 < quantity order →
        {| oid := next_oid self;
           dict := new_order order (quantity order) |}
        ∈ same_of order (book_of self' (symbol order)))).
Proof.
  intros Hr Hcall. apply reachable_consistent in Hr.
  destruct (on_order_received_front _ _ _ _ _ Hr Hcall)
    as (l' & rem' & Hf & Hopp & Hsame & _).
  assert (price_sorted (negb (is_buy order))
            (opposite_of order (book_of self (symbol order)))) as Hs.
  { destruct (consistent_book self (symbol order) Hr)
      as ((H1 & _) & (H2 & _) & _).
    unfold opposite_of, book_of.
    destruct (is_buy order); by apply price_time_sorted. }
  destruct (front_matching_nil_iff order _ (quantity order) Hs) as [Hiff Hnil].
  rewrite Hf in Hiff, Hnil. cbn in Hiff, Hnil. split; [done|].
  intros Hts. specialize (Hnil Hts). injection Hnil as _ -> ->.
  split; [done|]. intros Hq. rewrite Hsame.
  destruct (Z.ltb_spec 0 (quantity order)); [|lia].
  rewrite place_perm. by left.
Qed.

Lemma no_trade_iff_witness :
  (([] : list Trade) = []
   ↔ quantity (mkOrder "joe" "BUY" "AAPL" 99 3) ≤ 0
     ∨ Forall (fun r => crosses (mkOrder "joe" "BUY" "AAPL" 99 3) r = false)
              (opposite_of (mkOrder "joe" "BUY" "AAPL" 99 3)
                 (book_of demo_state "AAPL")))
  ∧ (([] : list Trade) = [] →
     opposite_of (mkOrder "joe" "BUY" "AAPL" 99 3)
       (book_of (state_after 10
                   (demo_orders ++ [mkOrder "joe" "BUY" "AAPL" 99 3]))
                "AAPL")
       = opposite_of (mkOrder "joe" "BUY" "AAPL" 99 3)
           (book_of demo_state "AAPL")
     ∧ (0 < quantity (mkOrder "joe" "BUY" "AAPL" 99 3) →
        {| oid := next_oid demo_state;
           dict := new_order (mkOrder "joe" "BUY" "AAPL" 99 3) 3 |}
        ∈ same_of (mkOrder "joe" "BUY" "AAPL" 99 3)
            (book_of (state_after 10
                        (demo_orders ++ [mkOrder "joe" "BUY" "AAPL" 99 3]))
                     "AAPL"))).
Proof.
  apply (no_trade_iff 10 demo_state (mkOrder "joe" "BUY" "AAPL" 99 3) []
           (state_after 10
              (demo_orders ++ [mkOrder "joe" "BUY" "AAPL" 99 3]))).
  - exact demo_reachable.
  - vm_compute. reflexivity.
Defined.

(** ** What a call does to the opposite list *)

(** X7. In a reachable state a call uses up a prefix of the opposite list:
    each entry of the prefix crosses the order and is traded in full, in
    list order, and removed. Then either the list is left at the rest, or
    the first entry of the rest is traded in part and stays at the front
    with the quantity it has left, as the last trade of the call; the
    entries behind it are untouched. *)
Theorem matching_consumes_prefix fuel self order ts self' :
  reachable self →
  on_order_received fuel self order = Ok (ts, self') →
  ∃ consumed rest,
    opposite_of order (book_of self (symbol order)) = consumed ++ rest
    ∧ Forall (fun r => crosses order r = true) consumed
    ∧ ((ts = full_trades order consumed
        ∧ opposite_of order (book_of self' (symbol order)) = rest)
       ∨ (∃ h t q,
            rest = h :: t ∧ crosses order h = true
            ∧ 0 < q < quantity (dict h)
            ∧ quantity order = sum_qty consumed + q
            ∧ ts = full_trades order consumed ++ [make_trade order h q]
            ∧ opposite_of order (book_of self' (symbol order))
              = with_quantity (quantity (dict h) - q) h :: t)).
Proof.
  intros Hr Hcall. apply reachable_consistent in Hr.
  destruct (on_order_received_front _ _ _ _ _ Hr Hcall)
    as (l' & rem' & Hf & -> & _).
  destruct (front_matching_shape _ _ _ _ _ _ Hf)
    as (consumed & rest & Hl & Hall & Hcase).
  exists consumed, rest. split; [done|]. split; [done|].
  destruct Hcase as [(-> & -> & _)|(h & t & -> & Hh & Hq & -> & -> & _)].
  - by left.
  - right. exists h, t, (quantity order - sum_qty consumed).
    repeat split; auto; lia.
Qed.

Lemma matching_consumes_prefix_witness :
  ∃ consumed rest,
    opposite_of demo_order (book_of demo_state (symbol demo_order))
      = consumed ++ rest
    ∧ Forall (fun r => crosses demo_order r = true) consumed
    ∧ ((demo_trades = full_trades demo_order consumed
        ∧ opposite_of demo_order (book_of demo_state' (symbol demo_order))
          = rest)
       ∨ (∃ h t q,
            rest = h :: t ∧ crosses demo_order h = true
            ∧ 0 < q < quantity (dict h)
            ∧ quantity demo_order = sum_qty consumed + q
            ∧ demo_trades
              = full_trades demo_order consumed ++ [make_trade demo_order h q]
            ∧ opposite_of demo_order
                (book_of demo_state' (symbol demo_order))
              = with_quantity (quantity (dict h) - q) h :: t)).
Proof.
  apply (matching_consumes_prefix 10 demo_state demo_order demo_trades
           demo_state').
  - exact demo_reachable.
  - exact demo_call.
Defined.

(** ** Independence of symbols *)

Lemma key_le_dict rev a b a' b' :
  dict a = dict a' → dict b = dict b' → key_le rev a b = key_le rev a' b'.
Proof. unfold key_le. by intros -> ->. Qed.

Lemma insert_by_dict rev x x' l l' :
  dict x = dict x' → map dict l = map dict l' →
  map dict (insert_by rev x l) = map dict (insert_by rev x' l').
Proof.
  intros Hx. revert l'.
  induction l as [|y l IH]; intros [|y' l'] Hl; try done; cbn [insert_by].
  - cbn. by rewrite Hx.
  - cbn [map] in Hl. injection Hl as Hy Hl.
    rewrite (key_le_dict rev x y x' y' Hx Hy).
    destruct (key_le rev x' y'); cbn [map]; [by rewrite Hx, Hy, Hl|].
    by rewrite Hy, (IH l' Hl).
Qed.

Lemma sorted_dict rev l l' :
  map dict l = map dict l' →
  map dict (sorted rev l) = map dict (sorted rev l').
Proof.
  revert l'. induction l as [|x l IH]; intros [|x' l'] Hl; try done.
  cbn [map] in Hl. injection Hl as Hx Hl. cbn [sorted].
  apply insert_by_dict; [done|]. by apply IH.
Qed.

(** X6. In any state, a call for another symbol does not interfere: if an
    order of symbol S1 would produce the trades [ts1] now, it produces the
    same trades after an order of a different symbol S2 has been processed,
    and leaves the same dictionaries in the same positions in the book of
    S1; the book of S2 is not changed by the later call. *)
Theorem other_symbol_does_not_interfere fuel self o1 o2 ts1 self1 ts2 self2 :
  symbol o2 ≠ symbol o1 →
  on_order_received fuel self o1 = Ok (ts1, self1) →
  on_order_received fuel self o2 = Ok (ts2, self2) →
  ∃ self21,
    on_order_received fuel self2 o1 = Ok (ts1, self21)
    ∧ map dict (buy (book_of self21 (symbol o1)))
      = map dict (buy (book_of self1 (symbol o1)))
    ∧ map dict (sell (book_of self21 (symbol o1)))
      = map dict (sell (book_of self1 (symbol o1)))
    ∧ book_of self21 (symbol o2) = book_of self2 (symbol o2).
Proof.
  intros Hne H1 H2.
  destruct (on_order_received_inv _ _ _ _ _ H1)
    as (st & Hw & Hts & Hopp & Hsame & _).
  assert (book_of self2 (symbol o1) = book_of self (symbol o1)) as Hbook.
  { apply (book_of_other _ _ _ _ _ _ H2). congruence. }
  rewrite <- Hbook in Hw.
  destruct (on_order_received_of_loop _ _ _ _ Hw) as (self21 & H21).
  rewrite Hts in H21. exists self21. split; [done|].
  destruct (on_order_received_inv _ _ _ _ _ H21)
    as (st' & Hw' & _ & Hopp' & Hsame' & _).
  rewrite Hw in Hw'. injection Hw' as <-.
  rewrite Hbook in Hsame'.
  assert (map dict (same_of o1 (book_of self21 (symbol o1)))
          = map dict (same_of o1 (book_of self1 (symbol o1)))) as Hs.
  { rewrite Hsame, Hsame'. destruct (0 <? remaining_qty st); [|done].
    apply sorted_dict. by rewrite !map_app. }
  assert (opposite_of o1 (book_of self21 (symbol o1))
          = opposite_of o1 (book_of self1 (symbol o1))) as Ho.
  { by rewrite Hopp, Hopp'. }
  unfold same_of, opposite_of in Hs, Ho.
  split; [|split].
  - destruct (is_buy o1); [done|by rewrite Ho].
  - destruct (is_buy o1); [by rewrite Ho|done].
  - by apply (book_of_other _ _ _ _ _ _ H21).
Qed.

Lemma other_symbol_does_not_interfere_witness :
  ∃ self21,
    on_order_received 10
      (state_after 10 (demo_orders ++ [mkOrder "kim" "BUY" "MSFT" 45 3]))
      demo_order = Ok (demo_trades, self21)
    ∧ map dict (buy (book_of self21 (symbol demo_order)))
      = map dict (buy (book_of demo_state' (symbol demo_order)))
    ∧ map dict (sell (book_of self21 (symbol demo_order)))
      = map dict (sell (book_of demo_state' (symbol demo_order)))
    ∧ book_of self21 (symbol (mkOrder "kim" "BUY" "MSFT" 45 3))
      = book_of
          (state_after 10 (demo_orders ++ [mkOrder "kim" "BUY" "MSFT" 45 3]))
          (symbol (mkOrder "kim" "BUY" "MSFT" 45 3)).
Proof.
  apply (other_symbol_does_not_interfere 10 demo_state demo_order
           (mkOrder "kim" "BUY" "MSFT" 45 3) demo_trades demo_state' []).
  - discriminate.
  - exact demo_call.
  - vm_compute. reflexivity.
Defined.

(** * Part IV: the consumer of the exchange *)

Lemma published_foldl ch ts :
  published (foldl basic_publish ch ts) = published ch ++ ts
  ∧ acked (foldl basic_publish ch ts) = acked ch.
Proof.
  revert ch. induction ts as [|t ts IH]; intros ch; cbn [foldl].
  - by rewrite app_nil_r.
  - destruct (IH (basic_publish ch t)) as [-> ->]. cbn.
    by rewrite <- app_assoc.
Qed.

(** Consuming a queue is running the engine on the orders that decode,
    publishing their trades and acknowledging every delivery. *)
Lemma start_consuming_run fuel ex ch queue :
  start_consuming fuel ex ch queue
  = match run fuel ex (decoded queue) with
    | Ok (ts, ex') =>
        Ok (ex', {| published := published ch ++ ts;
                    acked := acked ch ++ map fst queue |})
    | Raise e => Raise e
    | OutOfFuel => OutOfFuel
    end.
Proof.
  revert ex ch. induction queue as [|[tag body] queue IH]; intros ex ch.
  - cbn. rewrite !app_nil_r. destruct ch. reflexivity.
  - cbn [start_consuming]. unfold callback. cbn [fst snd].
    destruct body as [order|].
    + change (decoded ((tag, Some order) :: queue))
        with (order :: decoded queue).
      cbn [run].
      destruct (on_order_received fuel ex order) as [[ts1 ex1]| |];
        cbn [mbind result_bind]; [|done..].
      rewrite IH. cbn [basic_ack published acked].
      destruct (published_foldl ch ts1) as [-> ->].
      destruct (run fuel ex1 (decoded queue)) as [[ts2 ex2]| |];
        cbn [mbind result_bind map fst]; [|done..].
      by rewrite <- !app_assoc.
    + change (decoded ((tag, None) :: queue)) with (decoded queue).
      cbn [mbind result_bind]. rewrite IH. cbn [basic_ack published acked].
      destruct (run fuel ex (decoded queue)) as [[ts2 ex2]| |]; [|done..].
      cbn [map fst]. by rewrite <- app_assoc.
Qed.

(** X8. When the consumer gets through a queue of deliveries, it has
    acknowledged every delivery exactly once, in the order of delivery,
    the deliveries whose body does not decode included. *)
Theorem every_delivery_acknowledged fuel ex ch queue ex' ch' :
  start_consuming fuel ex ch queue = Ok (ex', ch') →
  acked ch' = acked ch ++ map fst queue.
Proof.
  rewrite start_consuming_run.
  destruct (run fuel ex (decoded queue)) as [[ts ex1]| |]; [|done..].
  by intros [= _ <-].
Qed.

(** X9. When the consumer gets through a queue of deliveries, the engine
    is in the state that processing the decodable orders alone, in order,
    leads to, and the trades published are exactly the trades of those
    orders, in the order produced: a body that does not decode changes
    neither the books nor the trades queue. *)
Theorem undecodable_deliveries_are_dropped fuel ex ch queue ex' ch' :
  start_consuming fuel ex ch queue = Ok (ex', ch') →
  ∃ ts, run fuel ex (decoded queue) = Ok (ts, ex')
        ∧ published ch' = published ch ++ ts.
Proof.
  rewrite start_consuming_run.
  destruct (run fuel ex (decoded queue)) as [[ts ex1]| |]; [|done..].
  intros [= <- <-]. by exists ts.
Qed.

(** A queue with an undecodable body between two orders. *)
Lemma demo_consuming :
  start_consuming 10 demo_state (mkChannel [] [])
    [(7%nat, Some (mkOrder "joe" "BUY" "AAPL" 99 3)); (8%nat, None);
     (9%nat, Some demo_order)]
  = Ok (state_after 10
          (demo_orders ++ [mkOrder "joe" "BUY" "AAPL" 99 3; demo_order]),
        mkChannel demo_trades [7%nat; 8%nat; 9%nat]).
Proof. vm_compute. reflexivity. Qed.

Lemma every_delivery_acknowledged_witness :
  acked (mkChannel demo_trades [7%nat; 8%nat; 9%nat])
  = acked (mkChannel [] [])
    ++ map fst [(7%nat, Some (mkOrder "joe" "BUY" "AAPL" 99 3));
                (8%nat, None); (9%nat, Some demo_order)].
Proof.
  apply (every_delivery_acknowledged 10 demo_state (mkChannel [] []) _ _ _
           demo_consuming).
Defined.

Lemma undecodable_deliveries_are_dropped_witness :
  ∃ ts,
    run 10 demo_state
      (decoded [(7%nat, Some (mkOrder "joe" "BUY" "AAPL" 99 3));
                (8%nat, None); (9%nat, Some demo_order)])
    = Ok (ts, state_after 10
                (demo_orders
                   ++ [mkOrder "joe" "BUY" "AAPL" 99 3; demo_order]))
    ∧ published (mkChannel demo_trades [7%nat; 8%nat; 9%nat])
      = published (mkChannel [] []) ++ ts.
Proof.
  apply (undecodable_deliveries_are_dropped 10 demo_state (mkChannel [] [])
           _ _ _ demo_consuming).
Defined.

(** ** The consumer does not fail *)








(** * Part V: the trade monitor *)

(** ** The tree widget *)

Lemma filter_other_items {V} (item : nat) (rs : list (nat * V)) :
  item ∉ map fst rs → filter (fun r => r.1 ≠ item) rs = rs.
Proof.
  induction rs as [|[i v] rs IH]; [done|]. cbn [map fst]. intros Hn.
  apply not_elem_of_cons in Hn as [Hi Hn].
  rewrite filter_cons_True by (by cbn; auto). by rewrite IH.
Qed.

(** Deleting the children one by one empties a tree whose items are
    distinct, without a [TclError]. *)
Lemma delete_items_all {V} (rs : list (nat * V)) n :
  NoDup (map fst rs) →
  delete_items (mkTreeview rs n) (map fst rs) = Some (mkTreeview [] n).
Proof.
  induction rs as [|[i v] rs IH]; [done|]. cbn [map fst]. intros Hnd.
  apply NoDup_cons in Hnd as [Hi Hnd]. cbn [delete_items].
  unfold tree_delete, get_children. cbn [rows next_item map fst].
  rewrite bool_decide_eq_true_2 by (by left). cbn [mbind option_bind].
  rewrite filter_cons_False by (cbn; auto).
  rewrite filter_other_items by done. by apply IH.
Qed.

Lemma foldl_tree_insert {V} (tree : Treeview V) (values : list V) :
  map snd (rows (foldl tree_insert tree values))
  = map snd (rows tree) ++ values
  ∧ get_children (foldl tree_insert tree values)
    = get_children tree ++ seq (next_item tree) (length values)
  ∧ next_item (foldl tree_insert tree values)
    = (next_item tree + length values)%nat.
Proof.
  revert tree. induction values as [|v values IH]; intros tree; cbn [foldl].
  - cbn. rewrite !app_nil_r. split; [done|]. split; [done|lia].
  - destruct (IH (tree_insert tree v)) as (-> & -> & ->).
    unfold get_children. cbn [tree_insert rows next_item length seq].
    rewrite !map_app. cbn [map fst snd]. rewrite <- !app_assoc.
    split; [done|]. split; [done|lia].
Qed.

Lemma tree_ok_insert_all {V} (tree : Treeview V) (values : list V) :
  tree_ok tree → tree_ok (foldl tree_insert tree values).
Proof.
  intros [Hnd Hlt]. unfold tree_ok.
  destruct (foldl_tree_insert tree values) as (_ & -> & ->).
  rewrite Forall_forall in Hlt. split.
  - apply NoDup_app. split; [done|]. split; [|apply NoDup_seq].
    intros i Hi Hseq. apply elem_of_seq in Hseq. specialize (Hlt i Hi). lia.
  - apply Forall_app. split.
    + apply Forall_forall. intros i Hi. specialize (Hlt i Hi). lia.
    + apply Forall_forall. intros i Hi. apply elem_of_seq in Hi. lia.
Qed.

(** ** [_refresh_prices_tree] *)

Lemma refresh_spec (self : TradingGUI) :
  tree_ok (prices_tree self) →
  ∃ self',
    _refresh_prices_tree self = Some self'
    ∧ map snd (rows (prices_tree self')) = last_prices self
    ∧ tree_ok (prices_tree self')
    ∧ trades_tree self' = trades_tree self
    ∧ last_prices self' = last_prices self.
Proof.
  intros [Hnd Hlt]. unfold _refresh_prices_tree.
  destruct (prices_tree self) as [rs n] eqn:Htree.
  unfold get_children in *. cbn [rows next_item] in *.
  rewrite (delete_items_all rs n Hnd). cbn [mbind option_bind].
  eexists. split; [done|]. cbn [prices_tree trades_tree last_prices].
  split; [|split; [|done]].
  - by destruct (foldl_tree_insert (mkTreeview [] n) (last_prices self))
      as (-> & _).
  - apply tree_ok_insert_all. split; [constructor|]. by cbn.
Qed.

(** X11. On a prices tree whose items are distinct, whatever rows it holds,
    [_refresh_prices_tree] succeeds and leaves in it exactly the items of
    [last_prices], one row each, in the order of the dictionary; the trades
    tree and the dictionary are not changed. *)
Theorem refresh_shows_last_prices (self : TradingGUI) :
  tree_ok (prices_tree self) →
  ∃ self',
    _refresh_prices_tree self = Some self'
    ∧ map snd (rows (prices_tree self')) = last_prices self
    ∧ tree_ok (prices_tree self')
    ∧ trades_tree self' = trades_tree self
    ∧ last_prices self' = last_prices self.
Proof. apply refresh_spec. Qed.

(** A tree with two stale rows and a dictionary with one price. *)
Lemma refresh_shows_last_prices_witness :
  ∃ self',
    _refresh_prices_tree
      (mkTradingGUI (mkTreeview [] 0)
         (mkTreeview [(3%nat, ("OLD", 1)); (5%nat, ("AAPL", 99))] 6)
         [("AAPL", 100)]) = Some self'
    ∧ map snd (rows (prices_tree self')) = [("AAPL", 100)]
    ∧ tree_ok (prices_tree self')
    ∧ trades_tree self' = mkTreeview [] 0
    ∧ last_prices self' = [("AAPL", 100)].
Proof.
  apply (refresh_shows_last_prices
           (mkTradingGUI (mkTreeview [] 0)
              (mkTreeview [(3%nat, ("OLD", 1)); (5%nat, ("AAPL", 99))] 6)
              [("AAPL", 100)])).
  split.
  - cbn. apply NoDup_cons. split.
    + intros H. apply list_elem_of_singleton in H. discriminate H.
    + apply NoDup_singleton.
  - cbn. repeat constructor; lia.
Defined.

(** ** [_process_trade] *)

Lemma shown_dict_set key value d key' :
  shown key' (dict_set key value d)
  = if String.eqb key key' then Some value else shown key' d.
Proof.
  induction d as [|[k v] d IH]; cbn [dict_set shown].
  - done.
  - destruct (String.eqb_spec k key) as [->|Hk]; cbn [shown].
    + by destruct (String.eqb key key').
    + rewrite IH. destruct (String.eqb_spec k key') as [->|Hk'];
        [|done].
      destruct (String.eqb_spec key key'); [congruence|done].
Qed.

Lemma keys_dict_set key value d :
  map fst (dict_set key value d)
  = if bool_decide (key ∈ map fst d) then map fst d
    else map fst d ++ [key].
Proof.
  induction d as [|[k v] d IH]; cbn [dict_set map fst].
  - rewrite bool_decide_eq_false_2; [done|]. apply not_elem_of_nil.
  - destruct (String.eqb_spec k key) as [->|Hk]; cbn [map fst].
    + rewrite bool_decide_eq_true_2; [done|]. by left.
    + rewrite IH. destruct (decide (key ∈ map fst d)) as [Hin|Hin].
      * rewrite !bool_decide_eq_true_2; [done|by right|done].
      * rewrite !bool_decide_eq_false_2; [done| |done].
        intros H. apply elem_of_cons in H as [->|H]; [done|]. by apply Hin.
Qed.

Lemma keys_dict_set_NoDup key value d :
  NoDup (map fst d) → NoDup (map fst (dict_set key value d)).
Proof.
  intros Hnd. rewrite keys_dict_set. case_bool_decide; [done|].
  apply NoDup_app. split; [done|]. split; [|apply NoDup_singleton].
  intros k Hk Hk'. apply list_elem_of_singleton in Hk' as ->. done.
Qed.

Lemma _process_trade_spec self trade :
  tree_ok (prices_tree self) →
  ∃ self',
    _process_trade self trade = Some self'
    ∧ tree_ok (prices_tree self')
    ∧ map snd (rows (prices_tree self')) = last_prices self'
    ∧ last_prices self'
      = dict_set (default "???" (get_symbol trade))
                 (default 0 (get_price trade)) (last_prices self)
    ∧ map snd (rows (trades_tree self'))
      = map snd (rows (trades_tree self)) ++ [trade_row trade].
Proof.
  intros Hok. unfold _process_trade.
  edestruct (refresh_spec) as (self' & Hr & Hrows & Hok' & Ht & Hl);
    [|rewrite Hr]; [exact Hok|].
  exists self'. split; [done|]. split; [done|].
  rewrite Hl, Ht. cbn [last_prices trades_tree] in *. split; [done|].
  split; [done|]. cbn [tree_insert rows]. rewrite map_app. done.
Qed.

Lemma process_trades_spec self msgs :
  tree_ok (prices_tree self) →
  ∃ self',
    process_trades self msgs = Some self'
    ∧ tree_ok (prices_tree self')
    ∧ (msgs ≠ [] → map snd (rows (prices_tree self')) = last_prices self')
    ∧ (NoDup (map fst (last_prices self)) →
       NoDup (map fst (last_prices self')))
    ∧ (∀ sym, shown sym (last_prices self')
              = match latest_price sym msgs with
                | Some p => Some p
                | None => shown sym (last_prices self)
                end)
    ∧ map snd (rows (trades_tree self'))
      = map snd (rows (trades_tree self)) ++ map trade_row msgs.
Proof.
  revert self. induction msgs as [|trade msgs IH]; intros self Hok.
  - exists self. cbn [process_trades latest_price map]. rewrite app_nil_r.
    split; [done|]. split; [done|]. split; [done|]. split; [done|].
    split; done.
  - destruct (_process_trade_spec self trade Hok)
      as (self1 & H1 & Hok1 & Hrows1 & Hl1 & Ht1).
    destruct (IH self1 Hok1) as (self' & H2 & Hok2 & Hrows2 & Hnd2 & Hs2 & Ht2).
    exists self'. cbn [process_trades]. rewrite H1. cbn [mbind option_bind].
    split; [done|]. split; [done|]. split; [|split; [|split]].
    + intros _. destruct msgs as [|m msgs]; [|by apply Hrows2].
      cbn [process_trades] in H2. injection H2 as H2. by rewrite <- H2.
    + intros Hnd. apply Hnd2. rewrite Hl1. by apply keys_dict_set_NoDup.
    + intros sym. rewrite Hs2. cbn [latest_price].
      destruct (latest_price sym msgs); [done|].
      rewrite Hl1, shown_dict_set.
      by destruct (String.eqb (default "???" (get_symbol trade)) sym).
    + rewrite Ht2, Ht1. cbn [map]. by rewrite <- app_assoc.
Qed.

(** X12. After the monitor has processed any sequence of trade messages,
    starting from the state [__init__] leaves, the prices tree has one row
    per symbol seen (no symbol twice), and the price shown for a symbol is
    the price of the latest message for it; a message without a symbol
    counts for "???" and one without a price for 0. The processing never
    fails on the tree. *)
Theorem monitor_shows_latest_price msgs :
  ∃ self',
    process_trades gui_init msgs = Some self'
    ∧ NoDup (map fst (map snd (rows (prices_tree self'))))
    ∧ ∀ sym, shown sym (map snd (rows (prices_tree self')))
             = latest_price sym msgs.
Proof.
  destruct (process_trades_spec gui_init msgs)
    as (self' & Hp & _ & Hrows & Hnd & Hs & _).
  { split; [constructor|]. by cbn. }
  exists self'. split; [done|].
  destruct msgs as [|m msgs].
  - cbn in Hp. injection Hp as <-. cbn. split; [constructor|done].
  - rewrite Hrows by done. split.
    + apply Hnd. cbn. constructor.
    + intros sym. rewrite Hs. by destruct (latest_price sym (m :: msgs)).
Qed.

(** X13. After the monitor has processed a sequence of trade messages, the
    trades tree holds one row per message, in the order processed, each
    made of the symbol, price, quantity, buyer and seller of the message,
    with "???" for a missing name and 0 for a missing number. *)
Theorem monitor_lists_every_trade msgs :
  ∃ self',
    process_trades gui_init msgs = Some self'
    ∧ map snd (rows (trades_tree self')) = map trade_row msgs.
Proof.
  destruct (process_trades_spec gui_init msgs)
    as (self' & Hp & _ & _ & _ & _ & Ht).
  { split; [constructor|]. by cbn. }
  exists self'. split; [done|]. by rewrite Ht.
Qed.

Example monitor_run :
  ∃ self',
    process_trades gui_init
      [mkTradeMsg (Some "AAPL") (Some 100) (Some 5) (Some "eve") (Some "ann");
       mkTradeMsg (Some "MSFT") (Some 50) (Some 1) (Some "x") (Some "y");
       mkTradeMsg None None (Some 2) None (Some "z");
       mkTradeMsg (Some "AAPL") (Some 101) (Some 2) (Some "eve") (Some "bob")]
    = Some self'
    ∧ map snd (rows (prices_tree self'))
      = [("AAPL", 101); ("MSFT", 50); ("???", 0)]
    ∧ map snd (rows (trades_tree self'))
      = [("AAPL", 100, 5, "eve", "ann"); ("MSFT", 50, 1, "x", "y");
         ("???", 0, 2, "???", "z"); ("AAPL", 101, 2, "eve", "bob")].
Proof.
  eexists. split; [vm_compute; reflexivity|].
  split; vm_compute; reflexivity.
Qed.
